(** * graphdb: the graph-result-to-visualization pipeline of backend/services.py

    A shallow embedding of [GraphQAService] (backend/services.py):
    the query rewriter [_create_graph_query], the pattern extractor
    [_extract_variables_from_pattern], the property serializer
    [_serialize_property], the reconstruction loop of [_extract_graph_data]
    and the error boundary of [query].

    Data model.  Query texts are Python [str] values; they are modelled as
    [string] read as ASCII code points, which is what [str.upper], [str.strip]
    and the regular-expression class [\w] are defined on below.  The model is
    Python's on the texts that satisfy [Text.isascii]: outside ASCII,
    [str.upper] can change the length of a text and [\w] and white space take
    in further characters; the statements on the positions found in an
    upper-cased text carry [isascii] as a hypothesis.  Python [dict]s
    whose iteration order is observable (rows, property bags, the node table)
    are association lists in insertion order; Python [set]s are [gset]s; the
    per-row label table, only ever read by key, is a [gmap]. *)

From Stdlib Require Import ZArith Ascii String List Lia Bool.
From Stdlib Require Import Numbers.DecimalString.
From stdpp Require Import gmap strings list.

Local Open Scope string_scope.

(** ** Python [str] primitives used by the service *)
Module Text.

Definition code (c : ascii) : N := N_of_ascii c.

Definition in_range (lo hi : N) (c : ascii) : bool :=
  (lo <=? code c)%N && (code c <=? hi)%N.

Definition is_lower (c : ascii) : bool := in_range 97 122 c.
Definition is_upper (c : ascii) : bool := in_range 65 90 c.
Definition is_digit (c : ascii) : bool := in_range 48 57 c.

(** [\w] on ASCII text: letters, digits and the underscore. *)
Definition is_word (c : ascii) : bool :=
  is_lower c || is_upper c || is_digit c || (code c =? 95)%N.

(** [str.isspace] on ASCII: TAB..CR, FS..US and the space. *)
Definition is_space (c : ascii) : bool :=
  in_range 9 13 c || in_range 28 32 c.

Definition upper_char (c : ascii) : ascii :=
  if is_lower c then ascii_of_N (code c - 32) else c.

Definition lower_char (c : ascii) : ascii :=
  if is_upper c then ascii_of_N (code c + 32) else c.

Fixpoint map_chars (f : ascii -> ascii) (s : string) : string :=
  match s with
  | EmptyString => EmptyString
  | String c t => String (f c) (map_chars f t)
  end.

(** [s.upper()] and [s.lower()]. *)
Definition upper (s : string) : string := map_chars upper_char s.
Definition lower (s : string) : string := map_chars lower_char s.

(** [s.capitalize()]: first character upper-cased, the rest lower-cased. *)
Definition capitalize (s : string) : string :=
  match s with
  | EmptyString => EmptyString
  | String c t => String (upper_char c) (lower t)
  end.

Definition len (s : string) : Z := Z.of_nat (String.length s).

Fixpoint drop (n : nat) (s : string) : string :=
  match n, s with
  | O, _ => s
  | S n', String _ t => drop n' t
  | S _, EmptyString => EmptyString
  end.

(** The index normalisation of Python slices and of the [start] argument
    of [str.find]: a negative index counts from the end, and both ends are
    clipped to the text. *)
Definition clip (n i : Z) : Z :=
  if (i <? 0)%Z then Z.max 0 (i + n) else Z.min i n.

(** [s[a:b]]. *)
Definition slice (s : string) (a b : Z) : string :=
  let a' := clip (len s) a in
  let b' := clip (len s) b in
  substring (Z.to_nat a') (Z.to_nat (b' - a')) s.

(** [s[a:]]. *)
Definition slice_from (s : string) (a : Z) : string := slice s a (len s).

(** [s[:b]]. *)
Definition slice_to (s : string) (b : Z) : string := slice s 0 b.

(** Scan for [sub] from the current suffix [s], which starts at index [i]. *)
Fixpoint find_at (sub s : string) (i : Z) : Z :=
  if String.prefix sub s then i
  else match s with
       | EmptyString => (-1)%Z
       | String _ t => find_at sub t (i + 1)
       end.

(** [s.find(sub, start)]: lowest index at or after [start] where [sub]
    occurs, [-1] when there is none. *)
Definition find (s sub : string) (start : Z) : Z :=
  let st := if (start <? 0)%Z then Z.max 0 (start + len s) else start in
  if (len s <? st)%Z then (-1)%Z
  else find_at sub (drop (Z.to_nat st) s) st.

(** [sub in s]. *)
Definition contains (sub s : string) : bool :=
  negb (find s sub 0 =? -1)%Z.

Fixpoint lstrip (s : string) : string :=
  match s with
  | EmptyString => EmptyString
  | String c t => if is_space c then lstrip t else s
  end.

Fixpoint rstrip (s : string) : string :=
  match s with
  | EmptyString => EmptyString
  | String c t =>
      match rstrip t with
      | EmptyString => if is_space c then EmptyString else String c EmptyString
      | r => String c r
      end
  end.

(** [s.strip()]. *)
Definition strip (s : string) : string := rstrip (lstrip s).

(** [s.endswith(suffix)]. *)
Definition endswith (s suffix : string) : bool :=
  let n := String.length s in
  let m := String.length suffix in
  (m <=? n)%nat && String.eqb (drop (n - m) s) suffix.

(** [sep.join(parts)]. *)
Fixpoint join (sep : string) (parts : list string) : string :=
  match parts with
  | [] => EmptyString
  | [p] => p
  | p :: rest => p ++ sep ++ join sep rest
  end.

(** [str(n)] for an [int]. *)
Definition str_of_int (n : Z) : string := NilZero.string_of_int (Z.to_int n).

(** [s.isascii()]: every code point of the text is below 128. *)
Fixpoint isascii (s : string) : bool :=
  match s with
  | EmptyString => true
  | String c t => (code c <? 128)%N && isascii t
  end.

End Text.

(** ** The fragment of Python's [re] the two patterns are written in *)
Module Regex.

(** Pattern syntax: literals, [\w], concatenation, greedy [?] and [*], and
    the capturing group.  Both patterns of the service have exactly one
    capturing group, so a match carries one optional capture. *)
Inductive re : Type :=
| Lit (c : ascii)
| Word
| Cat (a b : re)
| Opt (a : re)
| Star (a : re)
| Grp (a : re).

(** [a+] is [a] followed by [a*], both greedy. *)
Definition Plus (a : re) : re := Cat a (Star a).

(** The text consumed between the suffix [s] and its later suffix [s']. *)
Definition consumed (s s' : string) : string :=
  substring 0 (String.length s - String.length s') s.

Section Matcher.
Context {A : Type}.

(** The loop of a greedy [a*]: try [body] once more and go on, and when
    that fails stop here.  [n] bounds the number of iterations, every
    iteration having to consume a character. *)
Definition star_loop
    (body : string -> option string -> (string -> option string -> option A) -> option A)
    (k : string -> option string -> option A)
    : nat -> string -> option string -> option A :=
  fix loop (n : nat) (s : string) (cap : option string) : option A :=
    match n with
    | O => k s cap
    | S n' =>
        match body s cap (fun s' cap' =>
                if (String.length s' <? String.length s)%nat
                then loop n' s' cap' else None) with
        | Some x => Some x
        | None => k s cap
        end
    end.

(** Backtracking matcher in continuation-passing style: [rmatch r s cap k]
    tries the alternatives of [r] at the start of [s] in the order of the
    backtracking engine (greedy first) and hands the rest of the text and
    the capture to [k]; the first alternative that [k] accepts wins.  The
    loop of [Star] is bounded by the length of the text. *)
Fixpoint rmatch (r : re) (s : string) (cap : option string)
    (k : string -> option string -> option A) : option A :=
  match r with
  | Lit c =>
      match s with
      | String c' t => if Ascii.eqb c c' then k t cap else None
      | EmptyString => None
      end
  | Word =>
      match s with
      | String c' t => if Text.is_word c' then k t cap else None
      | EmptyString => None
      end
  | Cat a b => rmatch a s cap (fun s' cap' => rmatch b s' cap' k)
  | Opt a =>
      match rmatch a s cap k with
      | Some x => Some x
      | None => k s cap
      end
  | Star a => star_loop (rmatch a) k (String.length s) s cap
  | Grp a => rmatch a s cap (fun s' _ => k s' (Some (consumed s s')))
  end.

End Matcher.

(** A match of [r] at the start of [s]: the rest of the text and group 1. *)
Definition match_here (r : re) (s : string) : option (string * option string) :=
  rmatch r s None (fun s' cap => Some (s', cap)).

(** [re.findall(r, s)] for a pattern with one group: the non-overlapping
    matches from left to right, each reported by its group.  After a match
    the scan resumes where the match ended, otherwise one character on. *)
Fixpoint findall_from (r : re) (fuel : nat) (s : string) : list string :=
  match fuel with
  | O => []
  | S fuel' =>
      match match_here r s with
      | Some (s', cap) =>
          default EmptyString cap ::
            (if (String.length s' <? String.length s)%nat
             then findall_from r fuel' s'
             else match s with
                  | EmptyString => []
                  | String _ t => findall_from r fuel' t
                  end)
      | None =>
          match s with
          | EmptyString => []
          | String _ t => findall_from r fuel' t
          end
      end
  end.

Definition findall (r : re) (s : string) : list string :=
  findall_from r (S (String.length s)) s.

End Regex.

(** ** Clause location shared by the rewriter and the extractor *)
Module Clause.
Import Text Regex.

Local Infix "·" := Cat (at level 60, right associativity).

(** The node pattern of the source, laid out with blanks between its parts:
    [\(  (\w+)  (?: : [\w]+  (?: \| [\w]+ ) * ) ?  \)]. *)
Definition node_pattern : re :=
  Lit "(" · Grp (Plus Word) ·
  Opt (Lit ":" · Plus Word · Star (Lit "|" · Plus Word)) ·
  Lit ")".

(** The relationship pattern of the source, laid out the same way:
    [\[  (\w+)  (?: : [\w]+ ) ?  \]]. *)
Definition rel_pattern : re :=
  Lit "[" · Grp (Plus Word) · Opt (Lit ":" · Plus Word) · Lit "]".

Definition end_keywords : list string :=
  ["WHERE"; "RETURN"; "ORDER BY"; "LIMIT"; "WITH"].

(** The loop over [end_keywords]: the least index, from [match_idx] on, of a
    terminating keyword, or the length of the text. *)
Definition pattern_end (query query_upper : string) (match_idx : Z) : Z :=
  fold_left
    (fun pattern_end keyword =>
       let idx := find query_upper keyword match_idx in
       if negb (idx =? -1)%Z && (idx <? pattern_end)%Z then idx else pattern_end)
    end_keywords (len query).

(** [list(dict.fromkeys(l))]: duplicates removed, first occurrences kept in
    order. *)
Definition fromkeys (l : list string) : list string :=
  fold_left (fun keys x => if bool_decide (x ∈ keys) then keys else (keys ++ [x])%list) l [].

End Clause.

(** ** Visualization query rewriter: [_create_graph_query] *)
Module Rewriter.
Import Text Regex Clause.

(** [original_query[match_idx:pattern_end].strip()] *)
Definition match_pattern (original_query : string) : string :=
  let query_upper := upper original_query in
  let match_idx := find query_upper "MATCH" 0 in
  strip (slice original_query match_idx (pattern_end original_query query_upper match_idx)).

(** The where clause with its leading blank, or the empty text. *)
Definition where_clause (original_query : string) : string :=
  let query_upper := upper original_query in
  let match_idx := find query_upper "MATCH" 0 in
  let where_idx := find query_upper "WHERE" match_idx in
  let return_idx := find query_upper "RETURN" match_idx in
  if negb (where_idx =? -1)%Z && ((return_idx =? -1)%Z || (where_idx <? return_idx)%Z)
  then
    let where_end := if negb (return_idx =? -1)%Z then return_idx else len original_query in
    " " ++ strip (slice original_query where_idx where_end)
  else "".

Definition nodes_of (original_query : string) : list string :=
  fromkeys (findall node_pattern (match_pattern original_query)).

Definition rels_of (original_query : string) : list string :=
  fromkeys (findall rel_pattern (match_pattern original_query)).

(** [f"labels({item}) as {item}_labels"] *)
Definition labels_item (item : string) : string :=
  "labels(" ++ item ++ ") as " ++ item ++ "_labels".

(** The loop building [return_parts]. *)
Definition return_parts (nodes return_items : list string) : list string :=
  flat_map
    (fun item => if bool_decide (item ∈ nodes) then [item; labels_item item] else [item])
    return_items.

Definition _create_graph_query (original_query : string) : string :=
  let query_upper := upper original_query in
  if negb (contains "MATCH" query_upper) then original_query
  else
    let nodes := nodes_of original_query in
    let rels := rels_of original_query in
    let return_items := (nodes ++ rels)%list in
    match return_items with
    | [] => original_query
    | _ =>
        match_pattern original_query ++ where_clause original_query ++
        " RETURN " ++ join ", " (return_parts nodes return_items) ++ " LIMIT 50"
    end.

End Rewriter.

(** ** Pattern extractor: [_extract_variables_from_pattern] *)
Module Extractor.
Import Text Regex Clause.

(** The function returns a pair of Python [set]s. *)
Definition _extract_variables_from_pattern (cypher_query : string)
    : gset string * gset string :=
  let query_upper := upper cypher_query in
  let match_idx := find query_upper "MATCH" 0 in
  if (match_idx =? -1)%Z then (∅, ∅)
  else
    let match_pattern :=
      slice cypher_query match_idx (pattern_end cypher_query query_upper match_idx) in
    (list_to_set (findall node_pattern match_pattern),
     list_to_set (findall rel_pattern match_pattern)).

End Extractor.

(** ** Values returned by the graph store, and their Python behaviour *)
Module Value.
Import Text.

(** Objects other than the built-in JSON-like types: the driver's temporal
    [neo4j.time.Date] and [neo4j.time.DateTime], and anything else. *)
Inductive obj_kind : Type := Date | DateTime | OtherObject.

#[local] Set Warnings "-register-all".

(** A value of a result column or of a property.  A [float] is identified by
    its [repr] text (which Python guarantees to round-trip); an object
    carries what the service can observe of it: its class among the kinds
    above, its [str] and [repr] texts and its truth value.  Mappings have
    text keys, as the store's property maps do, and are kept in insertion
    order. *)
Inductive value : Type :=
| VNone
| VBool (b : bool)
| VInt (n : Z)
| VFloat (repr : string)
| VStr (s : string)
| VList (items : list value)
| VTuple (items : list value)
| VDict (items : list (string * value))
| VObj (kind : obj_kind) (text repr : string) (truth : bool).

Abbreviation bag := (list (string * value)).

(** [d.get(k)] as an option, then with Python's default [None], then with an
    explicit default. *)
Fixpoint dict_lookup (d : bag) (k : string) : option value :=
  match d with
  | [] => None
  | (k', v) :: rest => if String.eqb k' k then Some v else dict_lookup rest k
  end.

Definition get (d : bag) (k : string) : value := default VNone (dict_lookup d k).

Definition get_default (d : bag) (k : string) (dflt : value) : value :=
  default dflt (dict_lookup d k).

(** [bool(v)]. *)
Definition truthy (v : value) : bool :=
  match v with
  | VNone => false
  | VBool b => b
  | VInt n => negb (n =? 0)%Z
  | VFloat r => negb (String.eqb r "0.0" || String.eqb r "-0.0")
  | VStr s => negb (String.eqb s "")
  | VList items | VTuple items => negb (bool_decide (items = []))
  | VDict items => negb (bool_decide (items = []))
  | VObj _ _ _ truth => truth
  end.

(** [a or b]. *)
Definition py_or (a b : value) : value := if truthy a then a else b.

Definition hex_digit (n : N) : ascii :=
  if (n <? 10)%N then ascii_of_N (48 + n) else ascii_of_N (87 + n).

Definition squote : ascii := "'"%char.
Definition dquote : ascii := "034"%char.
Definition backslash : ascii := "\"%char.

Fixpoint has_char (c : ascii) (s : string) : bool :=
  match s with
  | EmptyString => false
  | String c' t => Ascii.eqb c c' || has_char c t
  end.

Definition escape_char (quote c : ascii) : string :=
  if Ascii.eqb c quote || Ascii.eqb c backslash then String backslash (String c "")
  else if (code c =? 9)%N then String backslash "t"
  else if (code c =? 10)%N then String backslash "n"
  else if (code c =? 13)%N then String backslash "r"
  else if (code c <? 32)%N || (code c =? 127)%N
       then String backslash
              (String "x" (String (hex_digit (code c / 16)) (String (hex_digit (code c mod 16)) "")))
  else String c "".

Fixpoint escape (quote : ascii) (s : string) : string :=
  match s with
  | EmptyString => EmptyString
  | String c t => escape_char quote c ++ escape quote t
  end.

(** [repr(s)] for a [str]. *)
Definition repr_str (s : string) : string :=
  let quote := if has_char squote s && negb (has_char dquote s) then dquote else squote in
  String quote (escape quote s ++ String quote "").

(** [repr(v)]. *)
Fixpoint py_repr (v : value) : string :=
  match v with
  | VNone => "None"
  | VBool true => "True"
  | VBool false => "False"
  | VInt n => str_of_int n
  | VFloat r => r
  | VStr s => repr_str s
  | VList items => "[" ++ join ", " (map py_repr items) ++ "]"
  | VTuple items =>
      match items with
      | [x] => "(" ++ py_repr x ++ ",)"
      | _ => "(" ++ join ", " (map py_repr items) ++ ")"
      end
  | VDict items =>
      "{" ++ join ", " (map (fun '(k, x) => repr_str k ++ ": " ++ py_repr x) items) ++ "}"
  | VObj _ _ r _ => r
  end.

(** [str(v)], also what an f-string field formats to. *)
Definition py_str (v : value) : string :=
  match v with
  | VStr s => s
  | VObj _ text _ _ => text
  | _ => py_repr v
  end.

End Value.

(** ** Property serializer: [_serialize_property] *)
Module Serializer.
Import Text Value.

(** The value the function returns, by the case analysis of the source.
    Whether a call returns at all depends on the interpreter's recursion
    limit, which [_serialize_property_within] below accounts for. *)
Fixpoint _serialize_property (value : value) : Value.value :=
  match value with
  | VNone => VNone
  | VObj Date _ _ _ => VStr (py_str value)
  | VObj DateTime _ _ _ => VStr (py_str value)
  | VDict items => VDict (map (fun '(k, v) => (k, _serialize_property v)) items)
  | VList items => VList (map _serialize_property items)
  | VTuple items => VList (map _serialize_property items)
  | VInt _ | VFloat _ | VStr _ | VBool _ => value
  | VObj OtherObject _ _ _ => VStr (py_str value)
  end.

(** The same function under the interpreter's recursion limit, which is the
    only bound on its depth: [frames] is the number of nested calls the stack
    has room for when the function is entered (a comprehension counted with
    the call that runs it), and [None] stands for the [RecursionError] raised
    by a call that finds no room.  Where it returns, it returns what
    [_serialize_property] computes. *)
Fixpoint _serialize_property_within (frames : nat) (value : value) : option Value.value :=
  match frames with
  | O => None
  | S frames =>
      match value with
      | VNone => Some VNone
      | VObj Date _ _ _ => Some (VStr (py_str value))
      | VObj DateTime _ _ _ => Some (VStr (py_str value))
      | VDict items =>
          VDict <$> mapM (fun '(k, v) => pair k <$> _serialize_property_within frames v) items
      | VList items => VList <$> mapM (_serialize_property_within frames) items
      | VTuple items => VList <$> mapM (_serialize_property_within frames) items
      | VInt _ | VFloat _ | VStr _ | VBool _ => Some value
      | VObj OtherObject _ _ _ => Some (VStr (py_str value))
      end
  end.

(** The number of nested calls a value needs: one for the value itself, and
    as many as its deepest element needs below it. *)
Fixpoint depth (v : value) : nat :=
  match v with
  | VList items | VTuple items => S (foldr Nat.max 0 (map depth items))
  | VDict items => S (foldr Nat.max 0 (map (fun '(_, x) => depth x) items))
  | _ => 1
  end.

(** The dict comprehension [{k: self._serialize_property(v) for k, v in d.items()}]. *)
Definition serialize_items (d : bag) : bag :=
  map (fun '(k, v) => (k, _serialize_property v)) d.

(** What a JSON encoder accepts: null, booleans, numbers, texts, and lists
    and text-keyed mappings of such. *)
Fixpoint json_safe (v : value) : bool :=
  match v with
  | VNone | VBool _ | VInt _ | VFloat _ | VStr _ => true
  | VList items => forallb json_safe items
  | VDict items => forallb (fun '(_, x) => json_safe x) items
  | VTuple _ | VObj _ _ _ _ => false
  end.

End Serializer.

(** ** Graph reconstructor: the row loop of [_extract_graph_data]

    The rows are the store's answer to the rewritten query; their values are
    taken to nest within the room the recursion limit leaves, so that the
    property serializer returns on them. *)
Module Reconstructor.
Import Text Value Serializer.

(** A node of the payload: the dict with keys [id], [label], [labels] and
    [properties]. *)
Record GraphNode : Type := {
  n_id : string;
  n_label : string;
  n_labels : list value;
  n_properties : bag
}.

(** A relationship of the payload: the dict with keys [type], [startNode],
    [endNode] and [properties]. *)
Record GraphRelationship : Type := {
  r_type : value;
  startNode : string;
  endNode : string;
  r_properties : bag
}.

Record GraphPayload : Type := {
  nodes : list GraphNode;
  relationships : list GraphRelationship
}.

(** A record of the query result: column name to value, in column order. *)
Abbreviation row := (list (string * value)).

(** The node table [nodes = {}]: synthetic id to node, in insertion order. *)
Abbreviation node_table := (list (string * GraphNode)).

(** [node_id in nodes]. *)
Definition in_table (node_id : string) (t : node_table) : bool :=
  existsb (fun '(k, _) => String.eqb k node_id) t.

(** First pass over a record: [labels_map]. *)
Definition collect_labels (record : row) : gmap string (list value) :=
  fold_left
    (fun labels_map '(key, value) =>
       match value with
       | VList l =>
           if endswith key "_labels" then <[slice_to key (-7) := l]> labels_map
           else labels_map
       | _ => labels_map
       end)
    record ∅.

(** [value.get('name') or value.get('title') or value.get('id') or key]. *)
Definition display_label (key : string) (value : bag) : Value.value :=
  py_or (get value "name") (py_or (get value "title") (py_or (get value "id") (VStr key))).

(** The keys left in a relationship's properties. *)
Definition is_endpoint_key (k : string) : bool :=
  bool_decide (k ∈ ["type"; "start"; "end"]).

Definition relationship_of (value : bag) : GraphRelationship :=
  {| r_type := get_default value "type" (VStr "RELATED_TO");
     startNode := py_str (get value "start");
     endNode := py_str (get value "end");
     r_properties :=
       serialize_items (filter (fun '(k, _) => negb (is_endpoint_key k)) value) |}.

(** The relationship branch: append when both endpoints are truthy. *)
Definition add_relationship (value : bag) (rels : list GraphRelationship)
    : list GraphRelationship :=
  if truthy (get value "start") && truthy (get value "end")
  then rels ++ [relationship_of value]
  else rels.

Section WithHash.

(** [hash(frozenset(value.items()))], a function of the running interpreter;
    [None] stands for the [TypeError] raised on an unhashable property. *)
Variable hash_items : bag -> option Z.

(** [value.get('name') or value.get('id') or value.get('title')
     or str(hash(frozenset(value.items())))]; [None] when the hash raises. *)
Definition node_id_prop (value : bag) : option Value.value :=
  if truthy (get value "name") then Some (get value "name")
  else if truthy (get value "id") then Some (get value "id")
  else if truthy (get value "title") then Some (get value "title")
  else option_map (fun h => VStr (str_of_int h)) (hash_items value).

Definition node_of (labels_map : gmap string (list value)) (key node_id : string)
    (value : bag) : GraphNode :=
  {| n_id := node_id;
     n_label := py_str (display_label key value);
     n_labels := default [VStr (capitalize key)] (labels_map !! key);
     n_properties := serialize_items value |}.

(** The node branch with its [try]: an exception leaves the table as it
    was, an id already in the table is not touched. *)
Definition add_node (labels_map : gmap string (list value)) (key : string)
    (value : bag) (t : node_table) : node_table :=
  match node_id_prop value with
  | None => t
  | Some node_id_prop =>
      let node_id := key ++ "_" ++ py_str node_id_prop in
      if in_table node_id t then t
      else (t ++ [(node_id, node_of labels_map key node_id value)])%list
  end.

(** The body of [if isinstance(value, dict)]: the node-variable test comes
    first, the relationship-variable test is its [elif]. *)
Definition dispatch_bag (node_vars rel_vars : gset string)
    (labels_map : gmap string (list value))
    (st : node_table * list GraphRelationship) (key : string) (value : bag)
    : node_table * list GraphRelationship :=
  if bool_decide (key ∈ node_vars) then (add_node labels_map key value st.1, st.2)
  else if bool_decide (key ∈ rel_vars) then (st.1, add_relationship value st.2)
  else st.

(** One iteration of the second pass: label columns and nulls are skipped,
    a property bag is dispatched, anything else is ignored. *)
Definition process_entry (node_vars rel_vars : gset string)
    (labels_map : gmap string (list value))
    (st : node_table * list GraphRelationship) (entry : string * Value.value)
    : node_table * list GraphRelationship :=
  let '(key, value) := entry in
  if endswith key "_labels" then st
  else
    match value with
    | VNone => st
    | VDict d => dispatch_bag node_vars rel_vars labels_map st key d
    | _ => st
    end.

(** One iteration of the loop over the records. *)
Definition process_record (node_vars rel_vars : gset string)
    (st : node_table * list GraphRelationship) (record : row)
    : node_table * list GraphRelationship :=
  fold_left (process_entry node_vars rel_vars (collect_labels record)) record st.

Definition process_rows (node_vars rel_vars : gset string) (raw_result : list row)
    (st : node_table * list GraphRelationship) : node_table * list GraphRelationship :=
  fold_left (process_record node_vars rel_vars) raw_result st.

(** The end of [_extract_graph_data]: the payload, or [None] when nothing
    was collected. *)
Definition finish (st : node_table * list GraphRelationship) : option GraphPayload :=
  let nodes_list := map snd st.1 in
  if (0 <? length nodes_list)%nat || (0 <? length st.2)%nat
  then Some {| nodes := nodes_list; relationships := st.2 |}
  else None.

(** The reconstruction from the rows of the rewritten query. *)
Definition reconstruct (raw_result : list row) (node_vars rel_vars : gset string)
    : option GraphPayload :=
  finish (process_rows node_vars rel_vars raw_result ([], [])).

(** [self.graph.query]: the rows, or [None] when the call raises. *)
Variable graph_query : string -> option (list row).

Definition _extract_graph_data (context : list row) (cypher_query : string)
    : option GraphPayload :=
  if negb (contains "MATCH" (upper cypher_query)) then None
  else
    match graph_query (Rewriter._create_graph_query cypher_query) with
    | None => None
    | Some raw_result =>
        let '(node_vars, rel_vars) :=
          Extractor._extract_variables_from_pattern cypher_query in
        reconstruct raw_result node_vars rel_vars
    end.

End WithHash.

End Reconstructor.

(** ** Orchestrator: [query] *)
Module Orchestrator.
Import Text Value Reconstructor.

(** An entry of [intermediate_steps]: a dict, whose [query] and [context]
    entries may be missing, a list of rows, or anything else. *)
Inductive step : Type :=
| StepDict (query : option string) (context : option (list row))
| StepList (rows : list row)
| StepOther.

(** The dict returned by the chain: the value under the [result] key, if the
    key is there (the value may be [None] or anything else), and the steps. *)
Record chain_result : Type := {
  result : option value;
  intermediate_steps : list step
}.

(** [await self.chain.ainvoke(...)]: a result; an instance of [Exception],
    given by its text [str(e)]; or an exception outside [Exception], such as
    [asyncio.CancelledError], [KeyboardInterrupt] or [SystemExit], which no
    [except Exception] catches. *)
Inductive chain_outcome : Type :=
| Returns (r : chain_result)
| Raises (e : string)
| RaisesBase (e : string).

(** The values of the response dict: a Python value, or the graph payload. *)
Inductive field : Type :=
| FValue (v : value)
| FGraph (g : GraphPayload).

Abbreviation FNone := (FValue VNone).
Abbreviation FStr s := (FValue (VStr s)).

(** How a call ends: it returns a value, or an exception leaves it. *)
Inductive completion (A : Type) : Type :=
| Returned (a : A)
| Propagated (e : string).

Arguments Returned {A} a.
Arguments Propagated {A} e.

(** The response: a dict from key to value. *)
Abbreviation response := (list (string * field)).

Fixpoint lookup (r : response) (k : string) : option field :=
  match r with
  | [] => None
  | (k', v) :: rest => if String.eqb k' k then Some v else lookup rest k
  end.

Definition syntax_error_marker : string := "Neo.ClientError.Statement.SyntaxError".

Definition rephrase_message : string :=
  "The LLM generated an invalid Cypher query. Please try rephrasing your question.".

(** [bool(context)] for a context that is absent, [None] or a list. *)
Definition has_rows (context : option (list row)) : bool :=
  match context with
  | Some (_ :: _) => true
  | _ => false
  end.

Section WithCollaborators.

Variable hash_items : bag -> option Z.
Variable graph_query : string -> option (list row).

(** [self.chain]: [None] until the service is initialised. *)
Variable chain : option (string -> chain_outcome).

(** The block guarded by [except (IndexError, KeyError, TypeError)]: the
    generated query and the graph data, starting from their defaults. *)
Definition read_steps (steps : list step) : string * option GraphPayload :=
  match steps with
  | StepDict (Some generated_cypher) context0 :: rest =>
      let context :=
        if negb (has_rows context0) && (1 <? length steps)%nat
        then match rest with
             | StepDict _ context1 :: _ => context1
             | StepList rows :: _ => Some rows
             | _ => context0
             end
        else context0 in
      match context with
      | Some (r :: rs) =>
          (generated_cypher,
           _extract_graph_data hash_items graph_query (r :: rs) generated_cypher)
      | _ => (generated_cypher, None)
      end
  | _ => ("No query generated.", None)
  end.

(** The handler of [query] is [except Exception]: an exception of the chain
    outside [Exception] is not caught and leaves the method. *)
Definition query (question : string) : completion response :=
  match chain with
  | None => Returned [("error", FStr "QA Chain is not initialized. Check server logs.")]
  | Some ainvoke =>
      match ainvoke question with
      | Returns r =>
          let '(generated_cypher, graph_data) := read_steps (intermediate_steps r) in
          Returned
            [("answer", FValue (default (VStr "No answer found.") (result r)));
             ("generated_cypher", FStr generated_cypher);
             ("graph_data", from_option FGraph FNone graph_data);
             ("error", FNone)]
      | Raises e =>
          if contains syntax_error_marker e
          then Returned [("error", FStr rephrase_message)]
          else Returned [("error", FStr ("An error occurred: " ++ e))]
      | RaisesBase e => Propagated e
      end
  end.

End WithCollaborators.

End Orchestrator.

(** ** The service object: [__init__], [connect_and_initialize], [get_status] *)
Module Service.
Import Text Value Reconstructor Orchestrator.

Section Collaborators.

(** The language-model client and the graph client are opaque handles. *)
Context {LLM Graph : Type}.

(** The settings object of config.py, as the service reads it. *)
Record Settings : Type := {
  GROQ_API_KEY : string;
  GROQ_MODEL : string;
  NEO4J_URI : string;
  NEO4J_USERNAME : string;
  NEO4J_PASSWORD : string;
  NEO4J_DATABASE : string
}.

(** What lies outside the service: the constructors of the two clients and
    of the chain, the schema read back after [refresh_schema()], the
    store's [query], the interpreter's hash, the response model's validation
    of a [str] field on a value that is neither a text nor [None] (it decodes
    bytes, for one; [None] when it refuses), and the text of the error
    raised when a response model refuses its fields.  Elsewhere [None] stands
    for a raised exception. *)
Record Environment : Type := {
  ChatGroq : string -> string -> option LLM;
  Neo4jGraph : string -> string -> string -> string -> option Graph;
  refresh_schema : Graph -> option string;
  graph_query_of : Graph -> string -> option (list row);
  from_llm : Graph -> LLM -> option (string -> chain_outcome);
  hash_of : bag -> option Z;
  validate_str : value -> option string;
  validation_error : response -> string
}.

(** The fields of a [GraphQAService]. *)
Record GraphQAService : Type := {
  config : Settings;
  llm : option LLM;
  graph : option Graph;
  chain : option (string -> chain_outcome);
  schema_cache : option string
}.

Definition __init__ (config : Settings) : GraphQAService :=
  {| config := config; llm := None; graph := None; chain := None; schema_cache := None |}.

Definition set_llm (self : GraphQAService) (l : LLM) : GraphQAService :=
  {| config := config self; llm := Some l; graph := graph self; chain := chain self;
     schema_cache := schema_cache self |}.

Definition set_graph (self : GraphQAService) (g : Graph) : GraphQAService :=
  {| config := config self; llm := llm self; graph := Some g; chain := chain self;
     schema_cache := schema_cache self |}.

Definition set_schema_cache (self : GraphQAService) (schema : string) : GraphQAService :=
  {| config := config self; llm := llm self; graph := graph self; chain := chain self;
     schema_cache := Some schema |}.

Definition set_chain (self : GraphQAService) (c : string -> chain_outcome) : GraphQAService :=
  {| config := config self; llm := llm self; graph := graph self; chain := Some c;
     schema_cache := schema_cache self |}.

(** How [connect_and_initialize] ends: it returns, or it re-raises. *)
Inductive init_outcome : Type := Completed | Raised.

Variable env : Environment.

(** The three [try] blocks in turn; every assignment made before an
    exception stays.  Client objects are truthy, so the test
    [if self.graph and self.llm] is a test for [None]. *)
Definition connect_and_initialize (self : GraphQAService) : GraphQAService * init_outcome :=
  match ChatGroq env (GROQ_API_KEY (config self)) (GROQ_MODEL (config self)) with
  | None => (self, Raised)
  | Some l =>
      let self := set_llm self l in
      match Neo4jGraph env (NEO4J_URI (config self)) (NEO4J_USERNAME (config self))
              (NEO4J_PASSWORD (config self)) (NEO4J_DATABASE (config self)) with
      | None => (self, Raised)
      | Some g =>
          let self := set_graph self g in
          match refresh_schema env g with
          | None => (self, Raised)
          | Some schema =>
              let self := set_schema_cache self schema in
              match graph self, llm self with
              | Some g', Some l' =>
                  match from_llm env g' l' with
                  | None => (self, Raised)
                  | Some c => (set_chain self c, Completed)
                  end
              | _, _ => (self, Completed)
              end
          end
      end
  end.

(** The dict returned by [get_status]. *)
Record Status : Type := {
  neo4j_connected : bool;
  neo4j_schema : string;
  llm_initialized : bool;
  qa_chain_ready : bool;
  llm_model_name : string
}.

Definition get_status (self : GraphQAService) : Status :=
  {| neo4j_connected := bool_decide (is_Some (graph self)) && bool_decide (is_Some (schema_cache self));
     neo4j_schema :=
       match schema_cache self with
       | Some schema => if String.eqb schema "" then "Not connected" else schema
       | None => "Not connected"
       end;
     llm_initialized := bool_decide (is_Some (llm self));
     qa_chain_ready := bool_decide (is_Some (chain self));
     llm_model_name := GROQ_MODEL (config self) |}.

(** [self.graph.query]; without a graph object the call raises. *)
Definition graph_query (self : GraphQAService) : string -> option (list row) :=
  match graph self with
  | Some g => graph_query_of env g
  | None => fun _ => None
  end.

(** [await service.query(question)] on this service object. *)
Definition query (self : GraphQAService) (question : string) : completion response :=
  Orchestrator.query (hash_of env) (graph_query self) (chain self) question.

End Collaborators.

Arguments Settings : clear implicits.
Arguments Environment : clear implicits.
Arguments GraphQAService : clear implicits.

End Service.

(** ** The HTTP layer: main.py *)
Module Api.
Import Text Value Reconstructor Orchestrator Service.

(** What an endpoint does: it returns a body, it raises [HTTPException], or
    an exception that is neither an [HTTPException] nor an [Exception]
    leaves it, unanswered by the endpoint. *)
Inductive http (A : Type) : Type :=
| Respond (body : A)
| HTTPException (status_code : Z) (detail : field)
| Unhandled (e : string).

Arguments Respond {A} body.
Arguments HTTPException {A} status_code detail.
Arguments Unhandled {A} e.

(** The response model of [/ask]. *)
Record QueryResponse : Type := {
  answer : string;
  generated_cypher : option string;
  graph_data : option GraphPayload;
  error : option string
}.

(** [bool(v)] for a value of the service's response dict, [None] when the
    key is missing; a payload is a dict with two keys. *)
Definition field_truthy (v : option field) : bool :=
  match v with
  | None => false
  | Some (FValue v) => truthy v
  | Some (FGraph _) => true
  end.

Section Collaborators.

Context {LLM Graph : Type}.
Variable env : Environment LLM Graph.

(** The response model on a field annotated [str]: a text is taken as it
    is and [None] is refused; for any other value the answer is the
    validator's.  The payload is a dict, not a text. *)
Definition str_field (v : field) : option string :=
  match v with
  | FValue (VStr s) => Some s
  | FValue VNone => None
  | FValue v => validate_str env v
  | FGraph _ => None
  end.

(** The response model on a field annotated [str | None], given by
    [dict.get]: a missing key reads as [None]. *)
Definition optional_str_field (v : option field) : option (option string) :=
  match v with
  | None | Some FNone => Some None
  | Some f => Some <$> str_field f
  end.

(** The response model on the field annotated [dict | None]; the service
    puts the payload or [None] there. *)
Definition optional_dict_field (v : option field) : option (option GraphPayload) :=
  match v with
  | None | Some FNone => Some None
  | Some (FGraph g) => Some (Some g)
  | Some (FValue _) => None
  end.

(** [QueryResponse(answer=..., generated_cypher=..., graph_data=..., error=None)]:
    the fields as the model takes them, or [None] when it refuses one and
    raises its validation error. *)
Definition make_response (answer : field) (generated_cypher graph_data : option field)
    : option QueryResponse :=
  a ← str_field answer;
  c ← optional_str_field generated_cypher;
  g ← optional_dict_field graph_data;
  Some {| answer := a; generated_cypher := c; graph_data := g; error := None |}.

(** [service_instance] once the startup half of [lifespan] has run: the
    object is created, and a failure to connect is logged and swallowed. *)
Definition startup (settings : Settings) : option (GraphQAService LLM Graph) :=
  Some (connect_and_initialize env (__init__ settings)).1.

(** The dependency of the endpoints. *)
Definition get_qa_service (service_instance : option (GraphQAService LLM Graph))
    : http (GraphQAService LLM Graph) :=
  match service_instance with
  | None =>
      HTTPException 503
        (FStr "Service Unavailable: The QA chain is not initialized. Check server logs.")
  | Some service =>
      match chain service with
      | None =>
          HTTPException 503
            (FStr "Service Unavailable: The QA chain is not initialized. Check server logs.")
      | Some _ => Respond service
      end
  end.

(** The body of the [/ask] endpoint.  Its handlers are [except
    HTTPException], which re-raises, and [except Exception], which answers
    500: an exception outside [Exception] that leaves [service.query] leaves
    the endpoint too. *)
Definition ask_question (service : GraphQAService LLM Graph) (question : string)
    : http QueryResponse :=
  if String.eqb question "" then HTTPException 400 (FStr "Question cannot be empty.")
  else
    match Service.query env service question with
    | Propagated e => Unhandled e
    | Returned result =>
        if field_truthy (lookup result "error")
        then HTTPException 500 (default FNone (lookup result "error"))
        else
          match make_response (default (FStr "No answer provided.") (lookup result "answer"))
                  (lookup result "generated_cypher") (lookup result "graph_data") with
          | Some body => Respond body
          | None =>
              HTTPException 500
                (FStr ("An unexpected server error occurred: " ++ validation_error env result))
          end
    end.

(** An endpoint behind its dependency: the dependency runs first, and its
    exception is the answer. *)
Definition ask_endpoint (service_instance : option (GraphQAService LLM Graph))
    (question : string) : http QueryResponse :=
  match get_qa_service service_instance with
  | Respond service => ask_question service question
  | HTTPException status_code detail => HTTPException status_code detail
  | Unhandled e => Unhandled e
  end.

Definition status_endpoint (service_instance : option (GraphQAService LLM Graph))
    : http Status :=
  match get_qa_service service_instance with
  | Respond service => Respond (get_status service)
  | HTTPException status_code detail => HTTPException status_code detail
  | Unhandled e => Unhandled e
  end.

End Collaborators.

End Api.

(** * Properties *)

(** ** Text primitives *)
Module TextFacts.
Import Text Clause.

Lemma prefix_split (sub s : string) :
  String.prefix sub s = true <-> exists b, s = sub ++ b.
Proof.
  revert s. induction sub as [| c sub IH]; intros s.
  - split; [intros _; now exists s | intros _; now destruct s].
  - destruct s as [| c' s]; cbn [String.prefix].
    + split; [discriminate | intros [b Hb]; discriminate Hb].
    + destruct (ascii_dec c c') as [-> | Hne].
      * rewrite IH. split; intros [b Hb]; exists b.
        -- cbn. now rewrite Hb.
        -- cbn in Hb. now inversion Hb.
      * split; [discriminate | intros [b Hb]]. cbn in Hb. inversion Hb. congruence.
Qed.

Lemma find_at_range (sub s : string) (i : Z) :
  find_at sub s i = (-1)%Z \/ (i <= find_at sub s i)%Z.
Proof.
  revert i. induction s as [| c s IH]; intros i; cbn [find_at].
  - destruct (String.prefix sub ""); [right; lia | now left].
  - destruct (String.prefix sub (String c s)); [right; lia |].
    destruct (IH (i + 1)%Z) as [H | H]; [now left | right; lia].
Qed.

Lemma find_at_found (sub s : string) (i : Z) :
  (0 <= i)%Z ->
  find_at sub s i <> (-1)%Z <-> exists a b, s = a ++ sub ++ b.
Proof.
  revert i. induction s as [| c s IH]; intros i Hi; cbn [find_at].
  - destruct (String.prefix sub "") eqn:E.
    + split; [intros _ | lia]. apply prefix_split in E as [b Hb]. now exists "", b.
    + split; [congruence |]. intros (a & b & Hab).
      assert (Hp : String.prefix sub "" = true).
      { apply prefix_split. destruct a; [now exists b | discriminate Hab]. }
      congruence.
  - destruct (String.prefix sub (String c s)) eqn:E.
    + split; [intros _ | lia]. apply prefix_split in E as [b Hb]. now exists "", b.
    + rewrite (IH (i + 1)%Z) by lia. split.
      * intros (a & b & Hab). exists (String c a), b. cbn. now rewrite Hab.
      * intros (a & b & Hab). destruct a as [| c' a].
        -- assert (Hp : String.prefix sub (String c s) = true) by (apply prefix_split; now exists b).
           congruence.
        -- cbn in Hab. inversion Hab. now exists a, b.
Qed.

(** [contains] is containment of a contiguous piece of text. *)
Lemma contains_spec (sub s : string) :
  contains sub s = true <-> exists a b, s = a ++ sub ++ b.
Proof.
  unfold contains, find. cbn [Z.ltb Z.compare].
  assert (Hlen : (len s <? 0)%Z = false) by (apply Z.ltb_ge; unfold len; lia).
  rewrite Hlen. cbn [Z.to_nat drop]. rewrite negb_true_iff, Z.eqb_neq.
  now apply find_at_found.
Qed.

(** [fromkeys] keeps the first occurrence of every name, in order. *)
Lemma fromkeys_from (acc l : list string) :
  fold_left (fun keys x => if bool_decide (x ∈ keys) then keys else (keys ++ [x])%list) l acc
  = (acc ++ filter (fun y => y ∉ acc) (fromkeys l))%list.
Proof.
  unfold fromkeys. revert acc. induction l as [| x l IH]; intros acc.
  - cbn. now rewrite app_nil_r.
  - cbn [fold_left]. rewrite (IH (if bool_decide (x ∈ acc) then acc else (acc ++ [x])%list)).
    rewrite (IH (if bool_decide (x ∈ []) then [] else ([] ++ [x])%list)).
    rewrite (bool_decide_eq_false_2 (x ∈ [])) by apply not_elem_of_nil. cbn [app].
    case_bool_decide as Hx.
    + f_equal. rewrite filter_cons_False by (intros H; exact (H Hx)).
      rewrite list_filter_filter. apply list_filter_iff. intros y. split; [| tauto].
      intros Hy. split; [exact Hy |]. intros Hyx. apply list_elem_of_singleton in Hyx. now subst.
    + rewrite <- app_assoc. f_equal. rewrite filter_cons_True by exact Hx. cbn [app]. f_equal.
      rewrite list_filter_filter. apply list_filter_iff. intros y.
      rewrite elem_of_app. tauto.
Qed.

Lemma fromkeys_cons (x : string) (l : list string) :
  fromkeys (x :: l) = x :: filter (fun y => y <> x) (fromkeys l).
Proof.
  unfold fromkeys at 1. cbn [fold_left].
  rewrite bool_decide_eq_false_2 by apply not_elem_of_nil. cbn [app].
  rewrite fromkeys_from. cbn [app]. f_equal. apply list_filter_iff.
  intros y. now rewrite list_elem_of_singleton.
Qed.

Lemma fromkeys_elem_of (l : list string) (x : string) : x ∈ fromkeys l <-> x ∈ l.
Proof.
  induction l as [| y l IH]; [reflexivity |].
  rewrite fromkeys_cons, !elem_of_cons, list_elem_of_filter, IH.
  destruct (decide (x = y)); tauto.
Qed.

Lemma fromkeys_NoDup (l : list string) : NoDup (fromkeys l).
Proof.
  induction l as [| y l IH]; [apply NoDup_nil_2 |].
  rewrite fromkeys_cons. apply NoDup_cons. split.
  - rewrite list_elem_of_filter. tauto.
  - now apply NoDup_filter.
Qed.

End TextFacts.

(** ** The matcher: the bounds of its loops are no restriction *)
Module RegexFacts.
Import Text Regex.

Section Matcher.
Context {A : Type}.

Implicit Types k : string -> option string -> option A.

Lemma star_loop_ext body k1 k2 :
  (forall s cap k k', (forall s' c, k s' c = k' s' c) -> body s cap k = body s cap k') ->
  (forall s' c, k1 s' c = k2 s' c) ->
  forall n s cap, star_loop body k1 n s cap = star_loop body k2 n s cap.
Proof.
  intros Hbody Hk. induction n as [| n IH]; intros s cap; cbn [star_loop]; [apply Hk |].
  rewrite (Hbody s cap _
             (fun s' cap' =>
                if (String.length s' <? String.length s)%nat
                then star_loop body k2 n s' cap' else None)).
  - now rewrite Hk.
  - intros s' c. now rewrite IH.
Qed.

(** The result only depends on what the continuation answers. *)
Lemma rmatch_ext (r : re) :
  forall s cap k1 k2,
    (forall s' c, k1 s' c = k2 s' c) -> rmatch r s cap k1 = rmatch r s cap k2.
Proof.
  induction r as [c | | a IHa b IHb | a IHa | a IHa | a IHa]; intros s cap k1 k2 Hk;
    cbn [rmatch].
  - destruct s as [| c' t]; [reflexivity |]. now rewrite Hk.
  - destruct s as [| c' t]; [reflexivity |]. now rewrite Hk.
  - apply IHa. intros s' c. now apply IHb.
  - rewrite (IHa s cap k1 k2 Hk). now rewrite Hk.
  - now apply star_loop_ext.
  - apply IHa. intros s' c. apply Hk.
Qed.

(** A continuation that refuses everything makes the match fail. *)
Lemma rmatch_refused (r : re) :
  forall s cap k, (forall s' c, k s' c = None) -> rmatch r s cap k = None.
Proof.
  induction r as [c | | a IHa b IHb | a IHa | a IHa | a IHa]; intros s cap k Hk;
    cbn [rmatch].
  - destruct s as [| c' t]; [reflexivity |]. rewrite Hk. now destruct (Ascii.eqb c c').
  - destruct s as [| c' t]; [reflexivity |]. rewrite Hk. now destruct (is_word c').
  - apply IHa. intros s' c. now apply IHb.
  - now rewrite (IHa s cap k Hk), Hk.
  - generalize (String.length s) as n. intros n. revert s cap.
    induction n as [| n IH]; intros s cap; cbn [star_loop]; [apply Hk |].
    rewrite IHa; [apply Hk |]. intros s' c. rewrite IH. now destruct (_ <? _)%nat.
  - apply IHa. intros s' c. apply Hk.
Qed.

(** Any bound from the length of the text on gives the same loop. *)
Lemma star_loop_bound (a : re) k :
  forall n1 n2 s cap,
    String.length s <= n1 -> String.length s <= n2 ->
    star_loop (rmatch a) k n1 s cap = star_loop (rmatch a) k n2 s cap.
Proof.
  assert (Hzero : forall n s cap, String.length s = 0 -> star_loop (rmatch a) k n s cap = k s cap).
  { intros [| n] s cap Hs; cbn [star_loop]; [reflexivity |].
    rewrite rmatch_refused; [reflexivity |]. intros s' c. rewrite Hs.
    now destruct (String.length s').  }
  induction n1 as [| n1 IH]; intros n2 s cap H1 H2.
  - rewrite !Hzero by lia. reflexivity.
  - destruct n2 as [| n2]; [rewrite !Hzero by lia; reflexivity |].
    cbn [star_loop].
    rewrite (rmatch_ext a s cap _
               (fun s' cap' =>
                  if (String.length s' <? String.length s)%nat
                  then star_loop (rmatch a) k n2 s' cap' else None)); [reflexivity |].
    intros s' c. destruct (String.length s' <? String.length s)%nat eqn:E; [| reflexivity].
    apply Nat.ltb_lt in E. apply IH; lia.
Qed.

(** A pattern that cannot match the empty text. *)
Fixpoint consuming (r : re) : bool :=
  match r with
  | Lit _ | Word => true
  | Cat a b => consuming a || consuming b
  | Opt _ | Star _ => false
  | Grp a => consuming a
  end.

Lemma star_loop_suffix (a : re) k (s0 : string) :
  forall n s cap,
    String.length s <= String.length s0 ->
    star_loop (rmatch a) k n s cap =
    star_loop (rmatch a)
      (fun s' c => if (String.length s' <=? String.length s0)%nat then k s' c else None)
      n s cap.
Proof.
  induction n as [| n IH]; intros s cap Hs; cbn [star_loop].
  - apply Nat.leb_le in Hs. now rewrite Hs.
  - rewrite (rmatch_ext a s cap _
               (fun s' cap' =>
                  if (String.length s' <? String.length s)%nat
                  then star_loop (rmatch a)
                         (fun s' c =>
                            if (String.length s' <=? String.length s0)%nat then k s' c else None)
                         n s' cap'
                  else None)).
    + apply Nat.leb_le in Hs. now rewrite Hs.
    + intros s' c. destruct (String.length s' <? String.length s)%nat eqn:E; [| reflexivity].
      apply Nat.ltb_lt in E. apply IH. lia.
Qed.

(** The continuation is only asked about texts no longer than the one the
    match starts from. *)
Lemma rmatch_suffix (r : re) :
  forall s cap k,
    rmatch r s cap k =
    rmatch r s cap
      (fun s' c => if (String.length s' <=? String.length s)%nat then k s' c else None).
Proof.
  induction r as [c | | a IHa b IHb | a IHa | a IHa | a IHa]; intros s cap k; cbn [rmatch].
  - destruct s as [| c' t]; [reflexivity |]. cbn [String.length].
    now rewrite (proj2 (Nat.leb_le _ _) (Nat.le_succ_diag_r _)).
  - destruct s as [| c' t]; [reflexivity |]. cbn [String.length].
    now rewrite (proj2 (Nat.leb_le _ _) (Nat.le_succ_diag_r _)).
  - rewrite IHa. symmetry. rewrite IHa. symmetry.
    apply rmatch_ext. intros s' c.
    destruct (String.length s' <=? String.length s)%nat eqn:E; [| reflexivity].
    apply Nat.leb_le in E. rewrite IHb. symmetry. rewrite IHb. symmetry.
    apply rmatch_ext. intros s'' c'.
    destruct (String.length s'' <=? String.length s')%nat eqn:E'; [| reflexivity].
    apply Nat.leb_le in E'. now rewrite (proj2 (Nat.leb_le _ _) (Nat.le_trans _ _ _ E' E)).
  - rewrite <- IHa. now rewrite Nat.leb_refl.
  - now apply star_loop_suffix.
  - rewrite IHa. symmetry. rewrite IHa. symmetry.
    apply rmatch_ext. intros s' c.
    destruct (String.length s' <=? String.length s)%nat eqn:E; reflexivity.
Qed.

(** After a consuming pattern the continuation is only asked about strictly
    shorter texts. *)
Lemma rmatch_consuming (r : re) :
  consuming r = true ->
  forall s cap k,
    rmatch r s cap k =
    rmatch r s cap
      (fun s' c => if (String.length s' <? String.length s)%nat then k s' c else None).
Proof.
  induction r as [c | | a IHa b IHb | a IHa | a IHa | a IHa]; intros Hc s cap k;
    cbn [rmatch consuming] in *; try discriminate.
  - destruct s as [| c' t]; [reflexivity |]. cbn [String.length].
    now rewrite (proj2 (Nat.ltb_lt _ _) (Nat.lt_succ_diag_r _)).
  - destruct s as [| c' t]; [reflexivity |]. cbn [String.length].
    now rewrite (proj2 (Nat.ltb_lt _ _) (Nat.lt_succ_diag_r _)).
  - rewrite (rmatch_suffix a). symmetry. rewrite (rmatch_suffix a). symmetry.
    destruct (consuming a) eqn:Ea.
    + rewrite IHa by reflexivity. symmetry. rewrite IHa by reflexivity. symmetry.
      apply rmatch_ext. intros s' c.
      destruct (String.length s' <? String.length s)%nat eqn:E; [| reflexivity].
      apply Nat.ltb_lt in E.
      destruct (String.length s' <=? String.length s)%nat; [| reflexivity].
      rewrite (rmatch_suffix b). symmetry. rewrite (rmatch_suffix b). symmetry.
      apply rmatch_ext. intros s'' c'.
      destruct (String.length s'' <=? String.length s')%nat eqn:E'; [| reflexivity].
      apply Nat.leb_le in E'.
      now rewrite (proj2 (Nat.ltb_lt _ _) (Nat.le_lt_trans _ _ _ E' E)).
    + cbn [orb] in Hc. apply rmatch_ext. intros s' c.
      destruct (String.length s' <=? String.length s)%nat eqn:E; [| reflexivity].
      apply Nat.leb_le in E.
      rewrite (IHb Hc). symmetry. rewrite (IHb Hc). symmetry.
      apply rmatch_ext. intros s'' c'.
      destruct (String.length s'' <? String.length s')%nat eqn:E'; [| reflexivity].
      apply Nat.ltb_lt in E'.
      now rewrite (proj2 (Nat.ltb_lt _ _) (Nat.lt_le_trans _ _ _ E' E)).
  - rewrite (IHa Hc). symmetry. rewrite (IHa Hc). symmetry.
    apply rmatch_ext. intros s' c.
    destruct (String.length s' <? String.length s)%nat; reflexivity.
Qed.

(** The loop of a consuming pattern is the greedy star of a backtracking
    engine: one more [a] followed by [a*], or else nothing. *)
Lemma rmatch_star (a : re) :
  consuming a = true ->
  forall s cap k,
    rmatch (Star a) s cap k =
    match rmatch a s cap (fun s' cap' => rmatch (Star a) s' cap' k) with
    | Some x => Some x
    | None => k s cap
    end.
Proof.
  intros Hc s cap k. cbn [rmatch].
  rewrite (rmatch_consuming a Hc s cap (fun s' cap' => star_loop (rmatch a) k _ s' cap')).
  destruct (String.length s) as [| n] eqn:Hlen; cbn [star_loop].
  - rewrite rmatch_refused; [reflexivity |]. intros s' c. now destruct (String.length s').
  - rewrite Hlen.
    rewrite (rmatch_ext a s cap _
               (fun s' c =>
                  if (String.length s' <? S n)%nat
                  then star_loop (rmatch a) k (String.length s') s' c else None));
      [reflexivity |].
    intros s' c. destruct (String.length s' <? S n)%nat eqn:E; [| reflexivity].
    apply Nat.ltb_lt in E. apply star_loop_bound; lia.
Qed.

End Matcher.

(** Every loop of the two patterns of the service runs over a consuming
    pattern. *)
Lemma pattern_loops_consume :
  consuming (Cat Word (Star Word)) = true /\
  consuming (Cat (Lit "|") (Plus Word)) = true /\
  consuming Word = true.
Proof. repeat split. Qed.

(** Any fuel above the length of the text gives the same list of matches. *)
Lemma findall_from_fuel (r : re) :
  forall n m s,
    String.length s < n -> String.length s < m ->
    findall_from r n s = findall_from r m s.
Proof.
  induction n as [| n IH]; intros m s Hn Hm; [lia |].
  destruct m as [| m]; [lia |]. cbn [findall_from].
  destruct (match_here r s) as [[s' cap] |].
  - f_equal. destruct (String.length s' <? String.length s)%nat eqn:E.
    + apply Nat.ltb_lt in E. apply IH; lia.
    + destruct s as [| c t]; [reflexivity |]. cbn [String.length] in *. apply IH; lia.
  - destruct s as [| c t]; [reflexivity |]. cbn [String.length] in *. apply IH; lia.
Qed.

Lemma findall_unfold (r : re) (c : ascii) (t : string) :
  findall r (String c t) =
    match match_here r (String c t) with
    | Some (s', cap) =>
        default EmptyString cap ::
          (if (String.length s' <? String.length (String c t))%nat
           then findall r s' else findall r t)
    | None => findall r t
    end.
Proof.
  unfold findall at 1. cbn [findall_from].
  destruct (match_here r (String c t)) as [[s' cap] |].
  - f_equal. destruct (String.length s' <? String.length (String c t))%nat eqn:E.
    + apply Nat.ltb_lt in E. cbn [String.length] in E. apply findall_from_fuel; cbn [String.length]; lia.
    + reflexivity.
  - reflexivity.
Qed.

End RegexFacts.

(** ** The property serializer *)
Module SerializerFacts.
Import Text Value Serializer.

Section ValueInduction.

Variable P : value -> Prop.
Hypothesis HNone : P VNone.
Hypothesis HBool : forall b, P (VBool b).
Hypothesis HInt : forall n, P (VInt n).
Hypothesis HFloat : forall r, P (VFloat r).
Hypothesis HStr : forall s, P (VStr s).
Hypothesis HList : forall items, Forall P items -> P (VList items).
Hypothesis HTuple : forall items, Forall P items -> P (VTuple items).
Hypothesis HDict : forall items, Forall (fun kv => P kv.2) items -> P (VDict items).
Hypothesis HObj : forall kind text repr truth, P (VObj kind text repr truth).

(** Induction on values that reaches the elements of lists, tuples and
    mappings. *)
Fixpoint value_nested_ind (v : value) : P v :=
  match v with
  | VNone => HNone
  | VBool b => HBool b
  | VInt n => HInt n
  | VFloat r => HFloat r
  | VStr s => HStr s
  | VList items =>
      HList items
        ((fix all (l : list value) : Forall P l :=
            match l with
            | [] => @List.Forall_nil _ P
            | x :: t => @List.Forall_cons _ P x t (value_nested_ind x) (all t)
            end) items)
  | VTuple items =>
      HTuple items
        ((fix all (l : list value) : Forall P l :=
            match l with
            | [] => @List.Forall_nil _ P
            | x :: t => @List.Forall_cons _ P x t (value_nested_ind x) (all t)
            end) items)
  | VDict items =>
      HDict items
        ((fix all (l : bag) : Forall (fun kv => P kv.2) l :=
            match l with
            | [] => @List.Forall_nil _ _
            | (k, x) :: t =>
                @List.Forall_cons _ (fun kv => P kv.2) (k, x) t (value_nested_ind x) (all t)
            end) items)
  | VObj kind text repr truth => HObj kind text repr truth
  end.

End ValueInduction.

Lemma serialize_json_safe (v : value) : json_safe (_serialize_property v) = true.
Proof.
  induction v as [| b | n | r | s | items IH | items IH | items IH | kind text repr truth]
    using value_nested_ind; try reflexivity.
  - cbn [_serialize_property json_safe]. induction IH as [| x l Hx _ IHl]; [reflexivity |].
    cbn [map forallb]. now rewrite Hx, IHl.
  - cbn [_serialize_property json_safe]. induction IH as [| x l Hx _ IHl]; [reflexivity |].
    cbn [map forallb]. now rewrite Hx, IHl.
  - cbn [_serialize_property json_safe]. induction IH as [| [k x] l Hx _ IHl]; [reflexivity |].
    cbn [map forallb]. cbn [snd] in Hx. now rewrite Hx, IHl.
  - destruct kind; reflexivity.
Qed.

Lemma serialize_items_keys (d : bag) : map fst (serialize_items d) = map fst d.
Proof.
  unfold serialize_items. induction d as [| [k v] d IH]; [reflexivity |].
  cbn [map fst]. now rewrite IH.
Qed.

Lemma serialize_items_length (d : bag) : length (serialize_items d) = length d.
Proof. unfold serialize_items. apply length_map. Qed.

(** A value that is already JSON-safe is left as it is. *)
Lemma serialize_json_safe_id (v : value) : json_safe v = true -> _serialize_property v = v.
Proof.
  induction v as [| b | n | r | s | items IH | items IH | items IH | kind text repr truth]
    using value_nested_ind; try reflexivity; try discriminate.
  - cbn [_serialize_property json_safe]. intros H. f_equal.
    induction IH as [| x l Hx _ IHl]; [reflexivity |].
    cbn [forallb] in H. apply andb_prop in H as [H1 H2].
    cbn [map]. now rewrite Hx, IHl.
  - cbn [_serialize_property json_safe]. intros H. f_equal.
    induction IH as [| [k x] l Hx _ IHl]; [reflexivity |].
    cbn [forallb] in H. apply andb_prop in H as [H1 H2]. cbn [snd] in Hx.
    cbn [map]. now rewrite Hx, IHl.
Qed.

Lemma depth_pos (v : value) : 1 <= depth v.
Proof. destruct v; cbn [depth]; lia. Qed.

Lemma max_bound {X : Type} (f : X -> nat) (l : list X) (n : nat) :
  foldr Nat.max 0 (map f l) <= n <-> Forall (fun x => f x <= n) l.
Proof.
  induction l as [| x l IH]; cbn [map foldr].
  - split; [constructor | lia].
  - rewrite Forall_cons, <- IH. lia.
Qed.

Lemma max_reached {X : Type} (f : X -> nat) (l : list X) (n : nat) :
  n < foldr Nat.max 0 (map f l) -> Exists (fun x => n < f x) l.
Proof.
  induction l as [| x l IH]; cbn [map foldr]; [lia |].
  intros H. destruct (Nat.lt_ge_cases n (f x)) as [Hx | Hx].
  - now apply Exists_cons_hd.
  - apply Exists_cons_tl, IH. lia.
Qed.

(** A comprehension returns when every element does, and raises when one
    element raises. *)
Lemma mapM_all {X Y : Type} (f : X -> option Y) (g : X -> Y) (l : list X) :
  Forall (fun x => f x = Some (g x)) l -> mapM f l = Some (map g l).
Proof.
  induction 1 as [| x l Hx _ IH]; [reflexivity |].
  cbn [mapM map]. rewrite Hx, IH. reflexivity.
Qed.

Lemma mapM_fails {X Y : Type} (f : X -> option Y) (l : list X) :
  Exists (fun x => f x = None) l -> mapM f l = None.
Proof.
  induction 1 as [x l Hx | x l _ IH]; cbn [mapM].
  - now rewrite Hx.
  - rewrite IH. now destruct (f x).
Qed.

(** With room for its depth, the serializer returns, and returns the value
    computed by the case analysis of [_serialize_property]. *)
Lemma serialize_within_room (frames : nat) :
  forall v, depth v <= frames ->
    _serialize_property_within frames v = Some (_serialize_property v).
Proof.
  induction frames as [| frames IH]; intros v Hd.
  - pose proof (depth_pos v). lia.
  - destruct v as [| b | n | r | s | items | items | items | kind text repr truth];
      try reflexivity; cbn [depth] in Hd;
      cbn [_serialize_property_within _serialize_property].
    + rewrite (mapM_all _ _serialize_property); [reflexivity |].
      assert (Hall : Forall (fun x => depth x <= frames) items) by (apply max_bound; lia).
      eapply Forall_impl; [exact Hall |]. intros x Hx. now apply IH.
    + rewrite (mapM_all _ _serialize_property); [reflexivity |].
      assert (Hall : Forall (fun x => depth x <= frames) items) by (apply max_bound; lia).
      eapply Forall_impl; [exact Hall |]. intros x Hx. now apply IH.
    + rewrite (mapM_all _ (fun '(k, v) => (k, _serialize_property v))); [reflexivity |].
      assert (Hall : Forall (fun kv => (fun '(_, x) => depth x) kv <= frames) items)
        by (apply (max_bound (fun '(_, x) => depth x)); lia).
      eapply Forall_impl; [exact Hall |]. intros [k x] Hx. now rewrite IH.
    + now destruct kind.
Qed.

(** Without room for its depth, the serializer raises. *)
Lemma serialize_without_room (frames : nat) :
  forall v, frames < depth v -> _serialize_property_within frames v = None.
Proof.
  induction frames as [| frames IH]; intros v Hd; [reflexivity |].
  destruct v as [| b | n | r | s | items | items | items | kind text repr truth];
    cbn [depth] in Hd; try lia; cbn [_serialize_property_within].
  - rewrite mapM_fails; [reflexivity |].
    assert (Hex : Exists (fun x => frames < depth x) items) by (apply max_reached; lia).
    eapply Exists_impl; [exact Hex |]. intros x Hx. now apply IH.
  - rewrite mapM_fails; [reflexivity |].
    assert (Hex : Exists (fun x => frames < depth x) items) by (apply max_reached; lia).
    eapply Exists_impl; [exact Hex |]. intros x Hx. now apply IH.
  - rewrite mapM_fails; [reflexivity |].
    assert (Hex : Exists (fun kv => frames < (fun '(_, x) => depth x) kv) items)
      by (apply (max_reached (fun '(_, x) => depth x)); lia).
    eapply Exists_impl; [exact Hex |]. intros [k x] Hx. now rewrite IH.
Qed.

(** A list nested [n] levels deep around a null. *)
Fixpoint nested (n : nat) : value :=
  match n with
  | O => VNone
  | S n' => VList [nested n']
  end.

Lemma depth_nested (n : nat) : depth (nested n) = S n.
Proof. induction n as [| n IH]; [reflexivity |]. cbn [nested depth map foldr]. rewrite IH. lia. Qed.

(** C8, as the code has it.  The property serializer is structure
    preserving, and it returns without raising exactly on the values whose
    nesting the interpreter's recursion limit has room for: with room for
    the depth of the value it returns the value given by the cases of the
    source, and without it raises.  The cases: null maps to null; a temporal
    date or datetime maps to its text; a mapping is serialized entry by
    entry with its keys kept, in order; a list or a tuple is serialized
    element by element, in order, into a list; integers, floats, texts and
    booleans are returned unchanged; any other object maps to its text.
    Every value returned is made of JSON-safe values only. *)
Theorem serialize_property_structure_preserving :
  (forall frames v,
     (depth v <= frames ->
      _serialize_property_within frames v = Some (_serialize_property v)) /\
     (frames < depth v -> _serialize_property_within frames v = None)) /\
  _serialize_property VNone = VNone /\
  (forall text repr truth,
     _serialize_property (VObj Date text repr truth) = VStr (py_str (VObj Date text repr truth)) /\
     _serialize_property (VObj DateTime text repr truth)
       = VStr (py_str (VObj DateTime text repr truth))) /\
  (forall items,
     _serialize_property (VDict items)
       = VDict (map (fun kv => (kv.1, _serialize_property kv.2)) items) /\
     map fst (serialize_items items) = map fst items) /\
  (forall items,
     _serialize_property (VList items) = VList (map _serialize_property items) /\
     _serialize_property (VTuple items) = VList (map _serialize_property items) /\
     length (map _serialize_property items) = length items) /\
  (forall n r s b,
     _serialize_property (VInt n) = VInt n /\
     _serialize_property (VFloat r) = VFloat r /\
     _serialize_property (VStr s) = VStr s /\
     _serialize_property (VBool b) = VBool b) /\
  (forall text repr truth,
     _serialize_property (VObj OtherObject text repr truth)
       = VStr (py_str (VObj OtherObject text repr truth))) /\
  (forall frames v w,
     _serialize_property_within frames v = Some w -> json_safe w = true).
Proof.
  split; [| repeat split; try reflexivity].
  - intros frames v. split; [apply serialize_within_room | apply serialize_without_room].
  - cbn [_serialize_property]. f_equal. apply map_ext. now intros [k v].
  - apply serialize_items_keys.
  - apply length_map.
  - intros frames v w H.
    destruct (Nat.le_gt_cases (depth v) frames) as [Hle | Hgt].
    + rewrite (serialize_within_room _ _ Hle) in H. inversion H. apply serialize_json_safe.
    + rewrite (serialize_without_room _ _ Hgt) in H. discriminate H.
Qed.

(** C8 as stated fails: the serializer is not total.  It has no depth guard,
    so whatever room the recursion limit leaves, a list nested one level
    deeper makes it raise; with room for three calls, a list of a list of a
    list is serialized and one more level is not. *)
Lemma serialize_property_recursion_limit :
  (forall frames, _serialize_property_within frames (nested frames) = None) /\
  _serialize_property_within 3 (VList [VList [VInt 1]]) = Some (VList [VList [VInt 1]]) /\
  _serialize_property_within 3 (VList [VList [VList [VInt 1]]]) = None.
Proof.
  split; [| split; reflexivity].
  intros frames. apply serialize_without_room. rewrite depth_nested. lia.
Qed.

End SerializerFacts.

(** ** The rewriter and the extractor *)
Module QueryFacts.
Import Text Regex Clause Rewriter Extractor.

(** The running example of the specification. *)
Definition example_query : string :=
  "MATCH (p:Person)-[r:ACTED_IN]->(m:Movie) RETURN p.name".

(** The return items of a node variable: itself, then its labels column. *)
Definition node_items (item : string) : list string := [item; labels_item item].

(** The match keyword occurs in the query, in any letter case. *)
Definition has_match_keyword (q : string) : Prop :=
  exists a b, upper q = a ++ "MATCH" ++ b.

(** The text the extractor scans: [cypher_query[match_idx:pattern_end]]. *)
Definition scanned_clause (cypher_query : string) : string :=
  let query_upper := upper cypher_query in
  let match_idx := find query_upper "MATCH" 0 in
  slice cypher_query match_idx (pattern_end cypher_query query_upper match_idx).

Lemma contains_false_find (sub s : string) :
  contains sub s = false -> find s sub 0 = (-1)%Z.
Proof.
  unfold contains. intros H. apply negb_false_iff in H. now apply Z.eqb_eq in H.
Qed.

Lemma contains_true_find (sub s : string) :
  contains sub s = true -> (find s sub 0 =? -1)%Z = false.
Proof. unfold contains. intros H. now apply negb_true_iff in H. Qed.

Lemma has_match_keyword_true (q : string) :
  has_match_keyword q <-> contains "MATCH" (upper q) = true.
Proof. unfold has_match_keyword. now rewrite TextFacts.contains_spec. Qed.

Lemma has_match_keyword_false (q : string) :
  ~ has_match_keyword q <-> contains "MATCH" (upper q) = false.
Proof. rewrite has_match_keyword_true. now destruct (contains "MATCH" (upper q)). Qed.

Lemma return_parts_nodes (nodes items : list string) :
  items ⊆ nodes -> return_parts nodes items = flat_map node_items items.
Proof.
  unfold return_parts. induction items as [| x items IH]; intros Hsub; [reflexivity |].
  cbn [flat_map]. rewrite bool_decide_eq_true_2 by set_solver.
  rewrite IH by set_solver. reflexivity.
Qed.

Lemma return_parts_rels (nodes items : list string) :
  (forall x, x ∈ items -> x ∉ nodes) -> return_parts nodes items = items.
Proof.
  unfold return_parts. induction items as [| x items IH]; intros Hdis; [reflexivity |].
  cbn [flat_map]. rewrite bool_decide_eq_false_2 by (apply Hdis; set_solver).
  rewrite IH by (intros y Hy; apply Hdis; set_solver). reflexivity.
Qed.

Lemma return_parts_app (nodes l1 l2 : list string) :
  return_parts nodes (l1 ++ l2) = (return_parts nodes l1 ++ return_parts nodes l2)%list.
Proof. unfold return_parts. apply flat_map_app. Qed.

(** The rewritten query, whatever the variables are: only the names that
    are node variables are followed by a labels column. *)
Lemma create_graph_query_shape (q : string) :
  contains "MATCH" (upper q) = true ->
  (nodes_of q ++ rels_of q)%list <> [] ->
  _create_graph_query q =
    match_pattern q ++ where_clause q ++ " RETURN " ++
    join ", " (return_parts (nodes_of q) (nodes_of q ++ rels_of q)) ++ " LIMIT 50".
Proof.
  intros Hm Hne. unfold _create_graph_query. rewrite Hm. cbn [negb].
  destruct (nodes_of q ++ rels_of q)%list eqn:E; [contradiction | reflexivity].
Qed.

(** The variables of the return clause are listed once each, in the order
    of their first occurrence in the match clause. *)
Lemma return_variables_first_seen (q : string) :
  NoDup (nodes_of q) /\ NoDup (rels_of q) /\
  (forall x, x ∈ nodes_of q <-> x ∈ findall node_pattern (match_pattern q)) /\
  (forall x, x ∈ rels_of q <-> x ∈ findall rel_pattern (match_pattern q)) /\
  (forall x l, fromkeys (x :: l) = x :: filter (fun y => y <> x) (fromkeys l)).
Proof.
  unfold nodes_of, rels_of.
  repeat split; auto using TextFacts.fromkeys_NoDup, TextFacts.fromkeys_cons;
    try apply TextFacts.fromkeys_elem_of.
Qed.

(** C9.  A query whose text does not contain the match keyword, in any
    letter case, yields two empty sets from the extractor and is returned
    unchanged by the rewriter. *)
Theorem no_match_keyword (q : string) :
  ~ has_match_keyword q ->
  _extract_variables_from_pattern q = (∅, ∅) /\ _create_graph_query q = q.
Proof.
  intros H. apply has_match_keyword_false in H. split.
  - unfold _extract_variables_from_pattern.
    rewrite (contains_false_find _ _ H). reflexivity.
  - unfold _create_graph_query. rewrite H. reflexivity.
Qed.

Lemma no_match_keyword_example :
  _extract_variables_from_pattern "RETURN count(*) AS n" = (∅, ∅) /\
  _create_graph_query "RETURN count(*) AS n" = "RETURN count(*) AS n".
Proof.
  apply (no_match_keyword "RETURN count(*) AS n").
  intros H. apply has_match_keyword_true in H. vm_compute in H. discriminate H.
Defined.

Lemma extract_variables_without_match (q : string) :
  contains "MATCH" (upper q) = false -> _extract_variables_from_pattern q = (∅, ∅).
Proof.
  intros H. unfold _extract_variables_from_pattern.
  rewrite (contains_false_find _ _ H). reflexivity.
Qed.

Lemma extract_variables_with_match (q : string) :
  contains "MATCH" (upper q) = true ->
  _extract_variables_from_pattern q =
    (list_to_set (findall node_pattern (scanned_clause q)),
     list_to_set (findall rel_pattern (scanned_clause q))).
Proof.
  intros H. unfold _extract_variables_from_pattern.
  rewrite (contains_true_find _ _ H). reflexivity.
Qed.

(** C5, as the code has it.  The extractor returns two sets, without an
    order: the names the node pattern finds in the scanned match clause, and
    the names the relationship pattern finds there (both empty without a
    match keyword).  For the example query they are {p, m} and {r}; the
    order of first occurrence, [p] before [m], is kept by the lists of the
    rewriter only. *)
Theorem extract_variables_sets :
  _extract_variables_from_pattern example_query = ({["p"; "m"]}, {["r"]}) /\
  (nodes_of example_query = ["p"; "m"] /\ rels_of example_query = ["r"]) /\
  (forall q x,
     x ∈ (_extract_variables_from_pattern q).1 <->
     has_match_keyword q /\ x ∈ findall node_pattern (scanned_clause q)) /\
  (forall q x,
     x ∈ (_extract_variables_from_pattern q).2 <->
     has_match_keyword q /\ x ∈ findall rel_pattern (scanned_clause q)).
Proof.
  split; [vm_compute; reflexivity |].
  split; [split; vm_compute; reflexivity |].
  split; intros q x; rewrite has_match_keyword_true;
    destruct (contains "MATCH" (upper q)) eqn:H.
  - rewrite (extract_variables_with_match _ H). cbn [fst]. rewrite elem_of_list_to_set. tauto.
  - rewrite (extract_variables_without_match _ H). cbn [fst].
    split; [intros Hx; now apply not_elem_of_empty in Hx | intros [? _]; discriminate].
  - rewrite (extract_variables_with_match _ H). cbn [snd]. rewrite elem_of_list_to_set. tauto.
  - rewrite (extract_variables_without_match _ H). cbn [snd].
    split; [intros Hx; now apply not_elem_of_empty in Hx | intros [? _]; discriminate].
Qed.

(** C5 as stated fails: the returned sets carry no first-seen order.  Two
    queries that bind [p] and [m] in opposite orders get the same result. *)
Lemma extract_variables_forget_order :
  findall node_pattern (scanned_clause "MATCH (p:Person)-[r:ACTED_IN]->(m:Movie) RETURN p.name")
    = ["p"; "m"] /\
  findall node_pattern (scanned_clause "MATCH (m:Movie)<-[r:ACTED_IN]-(p:Person) RETURN p.name")
    = ["m"; "p"] /\
  _extract_variables_from_pattern "MATCH (p:Person)-[r:ACTED_IN]->(m:Movie) RETURN p.name"
    = _extract_variables_from_pattern "MATCH (m:Movie)<-[r:ACTED_IN]-(p:Person) RETURN p.name".
Proof.
  split; [vm_compute; reflexivity |].
  split; vm_compute; reflexivity.
Qed.

End QueryFacts.

(** ** The graph reconstructor *)
Module ReconstructorFacts.
Import Text Value Serializer Reconstructor.

(** The nodes and relationships of a result, none when it is absent. *)
Definition payload_nodes (o : option GraphPayload) : list GraphNode :=
  from_option nodes [] o.

Definition payload_relationships (o : option GraphPayload) : list GraphRelationship :=
  from_option relationships [] o.

(** The keys of the node table. *)
Definition keys (t : node_table) : list string := map fst t.

(** The node table maps every key to a node carrying that key as its id,
    and has no key twice. *)
Definition table_ok (t : node_table) : Prop :=
  NoDup (keys t) /\ Forall (fun e => n_id e.2 = e.1) t.

(** An entry the second pass dispatches: not a label column, a property bag,
    under a name of one of the two variable sets. *)
Definition candidate (node_vars rel_vars : gset string) (entry : string * value) : bool :=
  match entry with
  | (key, VDict _) =>
      negb (endswith key "_labels") &&
      (bool_decide (key ∈ node_vars) || bool_decide (key ∈ rel_vars))
  | _ => false
  end.

(** The relationships an entry contributes: one when it is a property bag
    under a relationship-only name with truthy endpoints, none otherwise. *)
Definition appended (node_vars rel_vars : gset string) (entry : string * value)
    : list GraphRelationship :=
  match entry with
  | (key, VDict d) =>
      if negb (endswith key "_labels") && negb (bool_decide (key ∈ node_vars)) &&
         bool_decide (key ∈ rel_vars) && truthy (get d "start") && truthy (get d "end")
      then [relationship_of d]
      else []
  | _ => []
  end.

(** The first truthy value of a list, which is what a chain of [or] over
    the list evaluates to when there is one. *)
Fixpoint first_truthy (l : list value) : option value :=
  match l with
  | [] => None
  | v :: rest => if truthy v then Some v else first_truthy rest
  end.

Lemma fold_left_preserves {S X : Type} (P : S -> Prop) (f : S -> X -> S) (l : list X) :
  (forall s x, P s -> P (f s x)) -> forall s, P s -> P (fold_left f l s).
Proof.
  intros Hf. induction l as [| x l IH]; intros s Hs; [exact Hs |].
  cbn [fold_left]. apply IH, Hf, Hs.
Qed.

Lemma in_table_true (k : string) (t : node_table) : in_table k t = true <-> k ∈ keys t.
Proof.
  unfold in_table, keys. induction t as [| [k' n] t IH]; cbn [existsb map fst].
  - split; [discriminate | intros H; inversion H].
  - rewrite orb_true_iff, IH, elem_of_cons, String.eqb_eq. split; intros [H | H]; auto.
Qed.

Lemma in_table_false (k : string) (t : node_table) : in_table k t = false <-> k ∉ keys t.
Proof.
  rewrite <- in_table_true. destruct (in_table k t); split; intros H; congruence.
Qed.

Lemma payload_nodes_finish (st : node_table * list GraphRelationship) :
  payload_nodes (finish st) = map snd st.1.
Proof.
  unfold finish, payload_nodes. destruct st as [t r]. cbn [fst snd].
  destruct (0 <? length (map snd t))%nat eqn:E1; cbn [orb]; [reflexivity |].
  apply Nat.ltb_ge in E1. assert (Ht : map snd t = []) by (destruct (map snd t); [reflexivity | cbn in E1; lia]).
  destruct (0 <? length r)%nat; cbn [from_option nodes]; now rewrite Ht.
Qed.

Lemma payload_relationships_finish (st : node_table * list GraphRelationship) :
  payload_relationships (finish st) = st.2.
Proof.
  unfold finish, payload_relationships. destruct st as [t r]. cbn [fst snd].
  destruct (0 <? length r)%nat eqn:E2; [now rewrite orb_true_r |].
  apply Nat.ltb_ge in E2. assert (Hr : r = []) by (destruct r; [reflexivity | cbn in E2; lia]).
  subst r. now destruct (0 <? length (map snd t))%nat.
Qed.

Lemma finish_none (st : node_table * list GraphRelationship) :
  finish st = None <-> length st.1 + length st.2 = 0.
Proof.
  unfold finish. destruct st as [t r]. cbn [fst snd]. rewrite length_map.
  destruct t, r; cbn; split; intros H; try reflexivity; try discriminate; lia.
Qed.

Lemma finish_some (st : node_table * list GraphRelationship) (p : GraphPayload) :
  finish st = Some p ->
  p = {| nodes := map snd st.1; relationships := st.2 |} /\
  length (nodes p) + length (relationships p) <> 0.
Proof.
  unfold finish. destruct st as [t r]. cbn [fst snd]. rewrite length_map.
  destruct t, r; cbn; intros H; inversion H; subst; cbn; split; auto; lia.
Qed.

Section WithHash.

Variable hash_items : bag -> option Z.

(** The node branch either leaves the table as it was or appends one node
    under an id the table did not have. *)
Lemma add_node_cases lm key d (t : node_table) :
  add_node hash_items lm key d t = t \/
  exists node_id,
    in_table node_id t = false /\
    add_node hash_items lm key d t = (t ++ [(node_id, node_of lm key node_id d)])%list.
Proof.
  unfold add_node. destruct (node_id_prop hash_items d) as [p |]; [| now left].
  destruct (in_table (key ++ "_" ++ py_str p) t) eqn:E; [now left |].
  right. now exists (key ++ "_" ++ py_str p).
Qed.

Lemma add_node_ok lm key d (t : node_table) :
  table_ok t -> table_ok (add_node hash_items lm key d t).
Proof.
  intros [Hnd Hid]. destruct (add_node_cases lm key d t) as [-> | (i & Hi & ->)]; [now split |].
  apply in_table_false in Hi. split.
  - unfold keys in *. rewrite map_app. cbn [map fst]. apply NoDup_app. repeat split; auto.
    + intros x Hx Hx'. apply list_elem_of_singleton in Hx'. now subst.
    + apply NoDup_singleton.
  - apply Forall_app. split; [exact Hid |]. now repeat constructor.
Qed.

Lemma add_node_keys_mono lm key d (t : node_table) :
  keys t ⊆ keys (add_node hash_items lm key d t).
Proof.
  destruct (add_node_cases lm key d t) as [-> | (i & _ & ->)]; [done |].
  unfold keys. rewrite map_app. intros x Hx. apply elem_of_app. now left.
Qed.

(** Once an entry has been through the node branch, going through it again
    on any table that has kept the keys changes nothing, whatever labels
    the later row offers. *)
Lemma add_node_saturated lm lm' key d (t t' : node_table) :
  keys (add_node hash_items lm key d t) ⊆ keys t' ->
  add_node hash_items lm' key d t' = t'.
Proof.
  unfold add_node. destruct (node_id_prop hash_items d) as [p |]; [| reflexivity].
  intros Hsub. enough (H : in_table (key ++ "_" ++ py_str p) t' = true) by now rewrite H.
  apply in_table_true, Hsub.
  destruct (in_table (key ++ "_" ++ py_str p) t) eqn:E.
  - now apply in_table_true.
  - unfold keys. rewrite map_app. cbn [map fst]. set_solver.
Qed.

Lemma dispatch_bag_ok nv rv lm st key d :
  table_ok st.1 -> table_ok (dispatch_bag hash_items nv rv lm st key d).1.
Proof.
  intros H. unfold dispatch_bag. repeat case_bool_decide; cbn [fst]; auto using add_node_ok.
Qed.

Lemma process_entry_ok nv rv lm st e :
  table_ok st.1 -> table_ok (process_entry hash_items nv rv lm st e).1.
Proof.
  intros H. unfold process_entry. destruct e as [key v].
  destruct (endswith key "_labels"); [exact H |].
  destruct v; auto using dispatch_bag_ok.
Qed.

Lemma process_rows_ok nv rv rows st :
  table_ok st.1 -> table_ok (process_rows hash_items nv rv rows st).1.
Proof.
  unfold process_rows. apply (fold_left_preserves (fun s => table_ok s.1)).
  intros s record. unfold process_record.
  apply (fold_left_preserves (fun s => table_ok s.1)). intros; now apply process_entry_ok.
Qed.

Lemma process_entry_keys_mono nv rv lm st e :
  keys st.1 ⊆ keys (process_entry hash_items nv rv lm st e).1.
Proof.
  unfold process_entry. destruct e as [key v].
  destruct (endswith key "_labels"); [done |].
  destruct v; try done. unfold dispatch_bag.
  repeat case_bool_decide; cbn [fst]; try done. apply add_node_keys_mono.
Qed.

Lemma process_entries_keys_mono nv rv lm entries st :
  keys st.1 ⊆ keys (fold_left (process_entry hash_items nv rv lm) entries st).1.
Proof.
  revert st. induction entries as [| e entries IH]; intros st; [done |].
  cbn [fold_left]. etransitivity; [apply process_entry_keys_mono | apply IH].
Qed.

Lemma process_rows_keys_mono nv rv rows st :
  keys st.1 ⊆ keys (process_rows hash_items nv rv rows st).1.
Proof.
  unfold process_rows. revert st. induction rows as [| record rows IH]; intros st; [done |].
  cbn [fold_left]. etransitivity; [| apply IH].
  unfold process_record. apply process_entries_keys_mono.
Qed.

Lemma process_entry_saturated nv rv lm lm' st e (t' : node_table) r' :
  keys (process_entry hash_items nv rv lm st e).1 ⊆ keys t' ->
  (process_entry hash_items nv rv lm' (t', r') e).1 = t'.
Proof.
  unfold process_entry. destruct e as [key v].
  destruct (endswith key "_labels"); [reflexivity |].
  destruct v; try reflexivity. unfold dispatch_bag.
  repeat case_bool_decide; cbn [fst]; try reflexivity.
  apply add_node_saturated.
Qed.

Lemma process_entries_saturated nv rv lm lm' entries st (t' : node_table) r' :
  keys (fold_left (process_entry hash_items nv rv lm) entries st).1 ⊆ keys t' ->
  (fold_left (process_entry hash_items nv rv lm') entries (t', r')).1 = t'.
Proof.
  revert st r'. induction entries as [| e entries IH]; intros st r' Hsub; [reflexivity |].
  cbn [fold_left] in *.
  assert (He : (process_entry hash_items nv rv lm' (t', r') e).1 = t').
  { apply (process_entry_saturated nv rv lm lm' st).
    etransitivity; [apply process_entries_keys_mono | exact Hsub]. }
  destruct (process_entry hash_items nv rv lm' (t', r') e) as [t1 r1]. cbn [fst] in He. subst t1.
  now apply (IH (process_entry hash_items nv rv lm st e)).
Qed.

Lemma process_rows_saturated nv rv rows st (t' : node_table) r' :
  keys (process_rows hash_items nv rv rows st).1 ⊆ keys t' ->
  (process_rows hash_items nv rv rows (t', r')).1 = t'.
Proof.
  unfold process_rows. revert st r'.
  induction rows as [| record rows IH]; intros st r' Hsub; [reflexivity |].
  cbn [fold_left] in *.
  assert (He : (process_record hash_items nv rv (t', r') record).1 = t').
  { unfold process_record.
    apply (process_entries_saturated nv rv (collect_labels record) (collect_labels record) record st).
    etransitivity; [apply process_rows_keys_mono | exact Hsub]. }
  destruct (process_record hash_items nv rv (t', r') record) as [t1 r1]. cbn [fst] in He. subst t1.
  now apply (IH (process_record hash_items nv rv st record)).
Qed.

Lemma table_ok_ids (t : node_table) : table_ok t -> map n_id (map snd t) = keys t.
Proof.
  intros [_ H]. unfold keys. induction H as [| [k n] t Hk _ IH]; [reflexivity |].
  cbn [map fst snd] in *. now rewrite Hk, IH.
Qed.

(** C2, as the code has it.  The nodes of a reconstructed payload have
    pairwise distinct ids.  Processing an entry a second time changes
    nothing, even when the later row offers other labels: an entry whose id
    is already in the table leaves the table as it is (no duplicate; the
    stored node is not modified, so its labels are never updated, previously
    known or not), and an entry with a new id is appended.  Feeding the same
    rows again yields the same list of nodes.  The reconstruction is a
    function of the rows and the variable sets, so two runs on the same rows
    give the same nodes. *)
Theorem node_reconstruction_idempotent (rows : list row) (nv rv : gset string) :
  NoDup (map n_id (payload_nodes (reconstruct hash_items rows nv rv))) /\
  (forall lm lm' key d (t : node_table),
     add_node hash_items lm' key d (add_node hash_items lm key d t)
       = add_node hash_items lm key d t) /\
  (forall lm key d p (t : node_table),
     node_id_prop hash_items d = Some p ->
     add_node hash_items lm key d t =
       let node_id := key ++ "_" ++ py_str p in
       if in_table node_id t then t
       else (t ++ [(node_id, node_of lm key node_id d)])%list) /\
  payload_nodes (reconstruct hash_items (rows ++ rows) nv rv)
    = payload_nodes (reconstruct hash_items rows nv rv).
Proof.
  split; [| split; [| split]].
  - unfold reconstruct. rewrite payload_nodes_finish.
    assert (Hok : table_ok (process_rows hash_items nv rv rows ([], [])).1).
    { apply process_rows_ok. split; [apply NoDup_nil_2 | constructor]. }
    rewrite (table_ok_ids _ Hok). apply Hok.
  - intros lm lm' key d t. now apply (add_node_saturated lm lm' key d t).
  - intros lm key d p t Hp. unfold add_node. now rewrite Hp.
  - unfold reconstruct. rewrite !payload_nodes_finish. f_equal.
    unfold process_rows at 1. rewrite fold_left_app. fold (process_rows hash_items nv rv rows ([], [])).
    destruct (process_rows hash_items nv rv rows ([], [])) as [t r] eqn:E.
    fold (process_rows hash_items nv rv rows (t, r)). cbn [fst].
    apply (process_rows_saturated nv rv rows ([], [])). now rewrite E.
Qed.

Lemma process_entry_relationships nv rv lm st e :
  (process_entry hash_items nv rv lm st e).2 = (st.2 ++ appended nv rv e)%list.
Proof.
  unfold process_entry, appended. destruct e as [key v].
  destruct (endswith key "_labels"); cbn [negb andb]; [now destruct v; rewrite app_nil_r |].
  destruct v; try now rewrite app_nil_r. unfold dispatch_bag, add_relationship.
  repeat case_bool_decide; cbn [negb andb fst snd]; try now rewrite app_nil_r.
  destruct (truthy (get items "start")); cbn [andb]; [| now rewrite app_nil_r].
  destruct (truthy (get items "end")); [reflexivity | now rewrite app_nil_r].
Qed.

Lemma process_record_relationships nv rv st record :
  (process_record hash_items nv rv st record).2
    = (st.2 ++ flat_map (appended nv rv) record)%list.
Proof.
  unfold process_record. generalize (collect_labels record) as lm. intros lm.
  revert st. induction record as [| e record IH]; intros st; [now rewrite app_nil_r |].
  cbn [fold_left flat_map]. rewrite IH, process_entry_relationships. now rewrite <- app_assoc.
Qed.

Lemma process_rows_relationships nv rv rows st :
  (process_rows hash_items nv rv rows st).2
    = (st.2 ++ flat_map (flat_map (appended nv rv)) rows)%list.
Proof.
  unfold process_rows. revert st.
  induction rows as [| record rows IH]; intros st; [now rewrite app_nil_r |].
  cbn [fold_left flat_map]. rewrite IH, process_record_relationships. now rewrite <- app_assoc.
Qed.

Lemma reconstruct_relationships rows nv rv :
  payload_relationships (reconstruct hash_items rows nv rv)
    = flat_map (flat_map (appended nv rv)) rows.
Proof.
  unfold reconstruct. now rewrite payload_relationships_finish, process_rows_relationships.
Qed.

Lemma process_entry_not_candidate nv rv lm st e :
  candidate nv rv e = false -> process_entry hash_items nv rv lm st e = st.
Proof.
  unfold candidate, process_entry. destruct e as [key v].
  destruct (endswith key "_labels"); [reflexivity |].
  destruct v; try reflexivity. cbn [negb andb]. unfold dispatch_bag.
  intros H. apply orb_false_elim in H as [H1 H2]. now rewrite H1, H2.
Qed.

Lemma process_rows_no_candidate nv rv rows st :
  forallb (forallb (fun e => negb (candidate nv rv e))) rows = true ->
  process_rows hash_items nv rv rows st = st.
Proof.
  unfold process_rows. revert st.
  induction rows as [| record rows IH]; intros st H; [reflexivity |].
  cbn [forallb] in H. apply andb_prop in H as [Hrec Hrows].
  cbn [fold_left]. rewrite <- (IH st Hrows) at 2. f_equal.
  unfold process_record. generalize (collect_labels record) as lm. intros lm.
  clear IH Hrows. revert st. induction record as [| e record IHr]; intros st; [reflexivity |].
  cbn [forallb] in Hrec. apply andb_prop in Hrec as [He Hrec].
  cbn [fold_left]. rewrite process_entry_not_candidate by now apply negb_true_iff.
  now apply IHr.
Qed.


(** C6.  The reconstruction returns the payload exactly when the node table
    and the relationship list are not both empty after the last row, and
    [None] otherwise: in particular for no rows, and for rows without any
    entry to dispatch.  A payload that is returned, also through
    [_extract_graph_data], is never empty. *)
Theorem reconstruct_absent_iff_empty (rows : list row) (nv rv : gset string) :
  let st := process_rows hash_items nv rv rows ([], []) in
  (reconstruct hash_items rows nv rv = None <-> length st.1 + length st.2 = 0) /\
  (forall p, reconstruct hash_items rows nv rv = Some p <->
     length st.1 + length st.2 <> 0 /\
     p = {| nodes := map snd st.1; relationships := st.2 |}) /\
  reconstruct hash_items [] nv rv = None /\
  (forallb (forallb (fun e => negb (candidate nv rv e))) rows = true ->
   reconstruct hash_items rows nv rv = None) /\
  (forall graph_query context q p,
     _extract_graph_data hash_items graph_query context q = Some p ->
     length (nodes p) + length (relationships p) <> 0).
Proof.
  intros st. split; [| split; [| split; [| split]]].
  - apply finish_none.
  - intros p. unfold reconstruct. fold st. split.
    + intros H. destruct (finish_some _ _ H) as [-> Hne]. cbn [nodes relationships] in Hne.
      rewrite length_map in Hne. now split.
    + intros [Hne ->]. unfold finish. rewrite length_map.
      destruct st as [t r]. cbn [fst snd] in *. destruct t, r; cbn in *; try reflexivity. lia.
  - reflexivity.
  - intros H. unfold reconstruct. now rewrite process_rows_no_candidate.
  - intros graph_query context q p. unfold _extract_graph_data.
    destruct (negb (contains "MATCH" (upper q))); [discriminate |].
    destruct (graph_query (Rewriter._create_graph_query q)); [| discriminate].
    destruct (Extractor._extract_variables_from_pattern q) as [nv' rv'].
    unfold reconstruct. intros H. now apply finish_some in H.
Qed.

(** C7, as the code has it.  The display label is the text of the first
    truthy value among the name, the title and the id of the bag, in this
    order, and the variable name when none is truthy.  The synthetic id is
    the variable name, an underscore and the text of the first truthy value
    among the name, the id and the title, in this order, and the text of
    the hash of the bag when none is truthy.  So both prefer the name, but
    they differ after it: for a bag with a truthy id and no truthy name, the
    label is the text of the title when the title is truthy and the text of
    the id otherwise, while the synthetic id is built from the id either
    way. *)
Theorem label_and_id_preference lm key d :
  display_label key d
    = default (VStr key) (first_truthy [get d "name"; get d "title"; get d "id"]) /\
  node_id_prop hash_items d
    = match first_truthy [get d "name"; get d "id"; get d "title"] with
      | Some v => Some v
      | None => (fun h => VStr (str_of_int h)) <$> hash_items d
      end /\
  (forall p, node_id_prop hash_items d = Some p ->
     add_node hash_items lm key d []
       = [(key ++ "_" ++ py_str p,
           {| n_id := key ++ "_" ++ py_str p;
              n_label := py_str (display_label key d);
              n_labels := default [VStr (capitalize key)] (lm !! key);
              n_properties := serialize_items d |})]) /\
  (truthy (get d "name") = false ->
   truthy (get d "id") = true ->
   display_label key d = (if truthy (get d "title") then get d "title" else get d "id") /\
   node_id_prop hash_items d = Some (get d "id")).
Proof.
  split; [| split; [| split]].
  - unfold display_label, py_or. cbn [first_truthy].
    destruct (truthy (get d "name")); [reflexivity |].
    destruct (truthy (get d "title")); [reflexivity |].
    now destruct (truthy (get d "id")).
  - unfold node_id_prop. cbn [first_truthy].
    destruct (truthy (get d "name")); [reflexivity |].
    destruct (truthy (get d "id")); [reflexivity |].
    now destruct (truthy (get d "title")).
  - intros p Hp. unfold add_node. now rewrite Hp.
  - intros Hname Hid. split.
    + unfold display_label, py_or. rewrite Hname.
      destruct (truthy (get d "title")); [reflexivity | now rewrite Hid].
    + unfold node_id_prop. now rewrite Hname, Hid.
Qed.

End WithHash.

(** The example of the specification: two nodes, no relationship. *)
Example reconstruct_two_nodes :
  forall h,
    reconstruct h
      [[("p", VDict [("name", VStr "Tom Hanks")]); ("p_labels", VList [VStr "Person"]);
        ("m", VDict [("title", VStr "Big")]); ("m_labels", VList [VStr "Movie"])]]
      {["p"; "m"]} {["r"]}
    = Some {| nodes :=
                [{| n_id := "p_Tom Hanks"; n_label := "Tom Hanks";
                    n_labels := [VStr "Person"];
                    n_properties := [("name", VStr "Tom Hanks")] |};
                 {| n_id := "m_Big"; n_label := "Big";
                    n_labels := [VStr "Movie"];
                    n_properties := [("title", VStr "Big")] |}];
              relationships := [] |}.
Proof. intros h. vm_compute. reflexivity. Qed.



(** C7 as stated fails: with an id, a title and no name, the label is the
    title, although the synthetic id is built from the id. *)
Lemma label_prefers_title_over_id :
  dict_lookup [("id", VStr "tt0114709"); ("title", VStr "Toy Story")] "name" = None /\
  forall h,
    reconstruct h [[("m", VDict [("id", VStr "tt0114709"); ("title", VStr "Toy Story")])]]
      {["m"]} ∅
    = Some {| nodes := [{| n_id := "m_tt0114709";
                           n_label := "Toy Story";
                           n_labels := [VStr "M"];
                           n_properties :=
                             [("id", VStr "tt0114709"); ("title", VStr "Toy Story")] |}];
              relationships := [] |}.
Proof. split; [reflexivity | intros h; vm_compute; reflexivity]. Qed.

Lemma label_and_id_preference_example :
  display_label "m" [("id", VStr "tt0114709"); ("title", VStr "Toy Story")]
    = VStr "Toy Story" /\
  node_id_prop (fun _ => None) [("id", VStr "tt0114709"); ("title", VStr "Toy Story")]
    = Some (VStr "tt0114709").
Proof.
  apply (proj2 (proj2 (proj2
           (label_and_id_preference (fun _ => None) ∅ "m"
              [("id", VStr "tt0114709"); ("title", VStr "Toy Story")]))));
    reflexivity.
Defined.

(** C2 as stated fails: labels that were unknown are not updated.  A node
    first met in a row without its labels column gets the fallback label,
    and keeps it when a later row brings the column, although that row
    alone gives the node its label from the store. *)
Lemma labels_not_updated_when_unknown :
  (forall h,
     payload_nodes
       (reconstruct h
          [[("p", VDict [("name", VStr "Tom Hanks")])];
           [("p", VDict [("name", VStr "Tom Hanks")]); ("p_labels", VList [VStr "Person"])]]
          {["p"]} ∅)
     = [{| n_id := "p_Tom Hanks"; n_label := "Tom Hanks"; n_labels := [VStr "P"];
           n_properties := [("name", VStr "Tom Hanks")] |}]) /\
  (forall h,
     payload_nodes
       (reconstruct h
          [[("p", VDict [("name", VStr "Tom Hanks")]); ("p_labels", VList [VStr "Person"])]]
          {["p"]} ∅)
     = [{| n_id := "p_Tom Hanks"; n_label := "Tom Hanks"; n_labels := [VStr "Person"];
           n_properties := [("name", VStr "Tom Hanks")] |}]).
Proof. split; intros h; vm_compute; reflexivity. Qed.

End ReconstructorFacts.

(** ** The orchestrator *)
Module OrchestratorFacts.
Import Text Value Reconstructor Orchestrator.

Section WithCollaborators.

Variable hash_items : bag -> option Z.
Variable graph_query : string -> option (list row).

(** A call of [query] ends in one of two ways: it returns a response that
    carries the [error] key, or the chain raised outside [Exception] and
    that exception leaves [query]. *)
Lemma query_ends chain question :
  (exists resp,
     query hash_items graph_query chain question = Returned resp /\
     is_Some (lookup resp "error")) \/
  (exists ainvoke e,
     chain = Some ainvoke /\ ainvoke question = RaisesBase e /\
     query hash_items graph_query chain question = Propagated e).
Proof.
  unfold query. destruct chain as [ainvoke |]; [| left; eexists; split; [reflexivity | now eexists]].
  destruct (ainvoke question) as [r | e | e] eqn:E.
  - left. destruct (read_steps hash_items graph_query (intermediate_steps r)).
    eexists; split; [reflexivity | now eexists].
  - left. destruct (contains syntax_error_marker e);
      (eexists; split; [reflexivity | now eexists]).
  - right. now exists ainvoke, e.
Qed.

(** C3, as the code has it.  An instance of [Exception] raised by the chain
    does not leave [query]: when its text contains the store's syntax-error
    marker, the response is the [error] key alone with the fixed rephrase
    message; for any other text it is the [error] key alone with
    [An error occurred: ] followed by the text; in both cases the response
    has no [graph_data] key.  Whatever the chain does, [query] returns a
    response carrying the [error] key, unless the chain raises outside
    [Exception]: that exception, and no other, leaves [query]. *)
Theorem query_error_boundary ainvoke question e :
  ainvoke question = Raises e ->
  ((exists a b, e = a ++ "Neo.ClientError.Statement.SyntaxError" ++ b) ->
   query hash_items graph_query (Some ainvoke) question =
     Returned
       [("error",
         FStr "The LLM generated an invalid Cypher query. Please try rephrasing your question.")]) /\
  (~ (exists a b, e = a ++ "Neo.ClientError.Statement.SyntaxError" ++ b) ->
   query hash_items graph_query (Some ainvoke) question =
     Returned [("error", FStr ("An error occurred: " ++ e))]) /\
  (exists resp,
     query hash_items graph_query (Some ainvoke) question = Returned resp /\
     lookup resp "graph_data" = None) /\
  (forall chain q,
     (exists resp,
        query hash_items graph_query chain q = Returned resp /\
        is_Some (lookup resp "error")) \/
     (exists ainvoke' e',
        chain = Some ainvoke' /\ ainvoke' q = RaisesBase e' /\
        query hash_items graph_query chain q = Propagated e')).
Proof.
  intros H. unfold query at 1 2 3. rewrite H. unfold syntax_error_marker, rephrase_message.
  split; [| split; [| split]].
  - intros Hm. apply TextFacts.contains_spec in Hm. now rewrite Hm.
  - intros Hm. destruct (contains "Neo.ClientError.Statement.SyntaxError" e) eqn:E; [| reflexivity].
    apply TextFacts.contains_spec in E. contradiction.
  - destruct (contains "Neo.ClientError.Statement.SyntaxError" e); now eexists.
  - intros chain q. apply query_ends.
Qed.

End WithCollaborators.

Lemma query_error_boundary_example :
  query (fun _ => None) (fun _ => None)
    (Some (fun _ => Raises "{code: Neo.ClientError.Statement.SyntaxError} Invalid input"))
    "Who acted in Casino?"
  = Returned
      [("error",
        FStr "The LLM generated an invalid Cypher query. Please try rephrasing your question.")].
Proof.
  refine (proj1 (query_error_boundary (fun _ => None) (fun _ => None)
            (fun _ => Raises "{code: Neo.ClientError.Statement.SyntaxError} Invalid input")
            "Who acted in Casino?"
            "{code: Neo.ClientError.Statement.SyntaxError} Invalid input" _) _).
  - reflexivity.
  - exists "{code: ", "} Invalid input". reflexivity.
Defined.

(** C3 as stated fails: [query] does raise past its boundary.  Its handler
    is [except Exception], so a cancellation raised while the chain is
    awaited is not turned into an error response: it leaves [query]. *)
Lemma query_lets_cancellation_through :
  query (fun _ => None) (fun _ => None)
    (Some (fun _ => RaisesBase "CancelledError")) "Who acted in Casino?"
  = Propagated "CancelledError" /\
  forall resp,
    query (fun _ => None) (fun _ => None)
      (Some (fun _ => RaisesBase "CancelledError")) "Who acted in Casino?"
    <> Returned resp.
Proof. split; [reflexivity | discriminate]. Qed.

End OrchestratorFacts.

(** ** More on the graph reconstructor *)
Module ReconstructorMore.
Import Text Value Serializer Reconstructor ReconstructorFacts.

(** An entry of a row that the second pass hands to the node branch. *)
Definition node_entry (nv : gset string) (record : row) (key : string) (d : bag) : Prop :=
  (key, VDict d) ∈ record /\ key ∈ nv /\ endswith key "_labels" = false.

(** A bag with a truthy [name], [id] or [title]: its synthetic id does not
    need the hash. *)
Definition has_natural_id (d : bag) : bool :=
  truthy (get d "name") || truthy (get d "id") || truthy (get d "title").

(** Every dispatched bag of the rows has a natural id. *)
Definition natural_ids (nv : gset string) (rows : list row) : bool :=
  forallb
    (forallb (fun '(key, v) =>
       match v with
       | VDict d => negb (bool_decide (key ∈ nv)) || has_natural_id d
       | _ => true
       end))
    rows.

Definition properties_safe (st : node_table * list GraphRelationship) : Prop :=
  Forall (fun n => json_safe (VDict (n_properties n)) = true) (map snd st.1) /\
  Forall (fun r => json_safe (VDict (r_properties r)) = true) st.2.

Lemma serialize_items_safe (d : bag) : json_safe (VDict (serialize_items d)) = true.
Proof.
  cbn [json_safe]. unfold serialize_items. induction d as [| [k v] d IH]; [reflexivity |].
  cbn [map forallb]. now rewrite SerializerFacts.serialize_json_safe, IH.
Qed.

Lemma fold_left_ext_in {S X : Type} (f g : S -> X -> S) (l : list X) :
  (forall s x, x ∈ l -> f s x = g s x) -> forall s, fold_left f l s = fold_left g l s.
Proof.
  induction l as [| x l IH]; intros H s; [reflexivity |].
  cbn [fold_left]. rewrite H by apply list_elem_of_here.
  apply IH. intros s' y Hy. apply H. now apply list_elem_of_further.
Qed.

Section WithHash.

Variable hash_items : bag -> option Z.

Lemma process_entry_safe nv rv lm st e :
  properties_safe st -> properties_safe (process_entry hash_items nv rv lm st e).
Proof.
  intros [Hn Hr]. unfold process_entry. destruct e as [key v].
  destruct (endswith key "_labels"); [now split |].
  destruct v; try now split. unfold dispatch_bag.
  repeat case_bool_decide; cbn [fst snd]; try now split.
  - split; [| exact Hr]. cbn [fst].
    destruct (add_node_cases hash_items lm key items st.1) as [-> | (i & _ & ->)]; [exact Hn |].
    rewrite map_app. apply Forall_app. split; [exact Hn |].
    repeat constructor. cbn [snd node_of n_properties]. apply serialize_items_safe.
  - split; [exact Hn |]. cbn [snd]. unfold add_relationship.
    destruct (truthy (get items "start") && truthy (get items "end")); [| exact Hr].
    apply Forall_app. split; [exact Hr |].
    repeat constructor. cbn [relationship_of r_properties]. apply serialize_items_safe.
Qed.

Lemma process_rows_safe nv rv rows st :
  properties_safe st -> properties_safe (process_rows hash_items nv rv rows st).
Proof.
  unfold process_rows. apply (fold_left_preserves properties_safe).
  intros s record. unfold process_record.
  apply (fold_left_preserves properties_safe). intros; now apply process_entry_safe.
Qed.

(** X1.  Whatever the rows hold, the property bags of all nodes and of all
    relationships of a reconstructed payload are made of JSON-safe values
    only: they went through the serializer. *)
Theorem payload_properties_json_safe (rows : list row) (nv rv : gset string) :
  Forall (fun n => json_safe (VDict (n_properties n)) = true)
    (payload_nodes (reconstruct hash_items rows nv rv)) /\
  Forall (fun r => json_safe (VDict (r_properties r)) = true)
    (payload_relationships (reconstruct hash_items rows nv rv)).
Proof.
  unfold reconstruct. rewrite payload_nodes_finish, payload_relationships_finish.
  apply process_rows_safe. split; constructor.
Qed.

(** The table entry the node branch makes of an entry of [record]. *)
Definition made_from (nv : gset string) (record : row) (e : string * GraphNode) : Prop :=
  exists key d p,
    node_entry nv record key d /\
    node_id_prop hash_items d = Some p /\
    e = (key ++ "_" ++ py_str p,
         node_of (collect_labels record) key (key ++ "_" ++ py_str p) d).

Lemma process_entry_table nv rv lm st key v :
  (process_entry hash_items nv rv lm st (key, v)).1 =
    match v with
    | VDict d =>
        if negb (endswith key "_labels") && bool_decide (key ∈ nv)
        then add_node hash_items lm key d st.1 else st.1
    | _ => st.1
    end.
Proof.
  unfold process_entry. destruct (endswith key "_labels"); [now destruct v |].
  destruct v; try reflexivity. unfold dispatch_bag. cbn [negb andb].
  repeat case_bool_decide; reflexivity.
Qed.

Lemma process_entries_sound nv rv record entries st e :
  entries ⊆ record ->
  e ∈ (fold_left (process_entry hash_items nv rv (collect_labels record)) entries st).1 ->
  e ∈ st.1 \/ made_from nv record e.
Proof.
  revert st. induction entries as [| [key v] entries IH]; intros st Hsub He; [now left |].
  cbn [fold_left] in He. apply IH in He; [| set_solver].
  destruct He as [He | He]; [| now right].
  rewrite process_entry_table in He. destruct v; try now left.
  destruct (endswith key "_labels") eqn:El; cbn [negb andb] in He; [now left |].
  case_bool_decide as Hk; [| now left].
  unfold add_node in He. destruct (node_id_prop hash_items items) as [p |] eqn:Ep; [| now left].
  destruct (in_table (key ++ "_" ++ py_str p) st.1); [now left |].
  apply elem_of_app in He as [He | He]; [now left |].
  apply list_elem_of_singleton in He. right. exists key, items, p.
  repeat split; auto. apply Hsub, list_elem_of_here.
Qed.

Lemma process_rows_sound nv rv rows st e :
  e ∈ (process_rows hash_items nv rv rows st).1 ->
  e ∈ st.1 \/ exists record, record ∈ rows /\ made_from nv record e.
Proof.
  unfold process_rows. revert st.
  induction rows as [| record rows IH]; intros st He; [now left |].
  cbn [fold_left] in He. apply IH in He as [He | (r & Hr & He)].
  - unfold process_record in He. apply process_entries_sound in He; [| done].
    destruct He as [He | He]; [now left |]. right. exists record. split; [apply list_elem_of_here | exact He].
  - right. exists r. split; [now apply list_elem_of_further | exact He].
Qed.



Lemma reconstruct_nodes_made (rows : list row) (nv rv : gset string) (n : GraphNode) :
  n ∈ payload_nodes (reconstruct hash_items rows nv rv) ->
  exists record i, record ∈ rows /\ made_from nv record (i, n).
Proof.
  unfold reconstruct. rewrite payload_nodes_finish. intros Hn.
  apply list_elem_of_fmap in Hn as ([i n'] & -> & He). cbn [snd].
  apply process_rows_sound in He as [He | (record & Hr & He)]; [inversion He |].
  now exists record, i.
Qed.

(** X2.  Every node of a reconstructed payload was made by the node branch
    from a property bag of some row, found under a node variable that is not
    a label column: its id is the variable, an underscore and the text of
    the bag's identifying value, its label and serialized properties are
    those of that bag, and its labels are the labels column of that same row
    or else the capitalized variable. *)
Theorem payload_nodes_sound (rows : list row) (nv rv : gset string) (n : GraphNode) :
  n ∈ payload_nodes (reconstruct hash_items rows nv rv) ->
  exists record key d p,
    record ∈ rows /\ (key, VDict d) ∈ record /\ key ∈ nv /\
    endswith key "_labels" = false /\
    node_id_prop hash_items d = Some p /\
    n = {| n_id := key ++ "_" ++ py_str p;
           n_label := py_str (display_label key d);
           n_labels := default [VStr (capitalize key)] (collect_labels record !! key);
           n_properties := serialize_items d |}.
Proof.
  unfold reconstruct. rewrite payload_nodes_finish. intros Hn.
  apply list_elem_of_fmap in Hn as ([i n'] & -> & He). cbn [snd].
  apply process_rows_sound in He as [He | (record & Hr & key & d & p & (Hin & Hk & Hl) & Hp & He)];
    [inversion He |].
  inversion He; subst. now exists record, key, d, p.
Qed.


Lemma process_entry_extends nv rv lm st e :
  st.1 `prefix_of` (process_entry hash_items nv rv lm st e).1 /\
  st.2 `prefix_of` (process_entry hash_items nv rv lm st e).2.
Proof.
  split.
  - destruct e as [key v]. rewrite process_entry_table. destruct v; try done.
    destruct (negb (endswith key "_labels") && bool_decide (key ∈ nv)); [| done].
    destruct (add_node_cases hash_items lm key items st.1) as [-> | (i & _ & ->)]; [done |].
    now apply prefix_app_r.
  - rewrite process_entry_relationships. now apply prefix_app_r.
Qed.

Lemma process_rows_extends nv rv rows st :
  st.1 `prefix_of` (process_rows hash_items nv rv rows st).1 /\
  st.2 `prefix_of` (process_rows hash_items nv rv rows st).2.
Proof.
  unfold process_rows.
  apply (fold_left_preserves (fun s => st.1 `prefix_of` s.1 /\ st.2 `prefix_of` s.2)); [| done].
  intros s record Hs. unfold process_record.
  apply (fold_left_preserves (fun s => st.1 `prefix_of` s.1 /\ st.2 `prefix_of` s.2)); [| done].
  intros s' e [H1 H2]. destruct (process_entry_extends nv rv (collect_labels record) s' e) as [H3 H4].
  split; etransitivity; eassumption.
Qed.

(** X4.  Later rows only add to the end: the nodes and the relationships
    reconstructed from the first rows of a result are, in the same order,
    the beginning of those reconstructed from the whole result.  A node
    keeps the position, label, labels and properties of its first
    occurrence. *)
Theorem reconstruct_rows_extend (rows more : list row) (nv rv : gset string) :
  payload_nodes (reconstruct hash_items rows nv rv)
    `prefix_of` payload_nodes (reconstruct hash_items (rows ++ more) nv rv) /\
  payload_relationships (reconstruct hash_items rows nv rv)
    `prefix_of` payload_relationships (reconstruct hash_items (rows ++ more) nv rv).
Proof.
  unfold reconstruct. rewrite !payload_nodes_finish, !payload_relationships_finish.
  unfold process_rows at 2 4. rewrite fold_left_app.
  fold (process_rows hash_items nv rv rows ([], [])).
  fold (process_rows hash_items nv rv more (process_rows hash_items nv rv rows ([], []))).
  destruct (process_rows_extends nv rv more (process_rows hash_items nv rv rows ([], [])))
    as [[k1 H1] H2].
  split; [| exact H2]. rewrite H1, map_app. now apply prefix_app_r.
Qed.

End WithHash.

Lemma node_id_prop_natural (h1 h2 : bag -> option Z) (d : bag) :
  has_natural_id d = true -> node_id_prop h1 d = node_id_prop h2 d.
Proof.
  unfold has_natural_id, node_id_prop. intros H.
  destruct (truthy (get d "name")); [reflexivity |].
  destruct (truthy (get d "id")); [reflexivity |].
  destruct (truthy (get d "title")); [reflexivity | discriminate].
Qed.

Lemma process_entry_natural (h1 h2 : bag -> option Z) nv rv lm st key v :
  match v with
  | VDict d => negb (bool_decide (key ∈ nv)) || has_natural_id d
  | _ => true
  end = true ->
  process_entry h1 nv rv lm st (key, v) = process_entry h2 nv rv lm st (key, v).
Proof.
  intros H. unfold process_entry. destruct (endswith key "_labels"); [reflexivity |].
  destruct v; try reflexivity. unfold dispatch_bag.
  case_bool_decide as Hk; [| reflexivity]. cbn [negb orb] in H.
  unfold add_node. now rewrite (node_id_prop_natural h1 h2 items H).
Qed.

(** X5.  The hash of the interpreter matters only for bags without a truthy
    name, id or title: when every property bag found under a node variable
    has one of the three, the reconstruction is the same for any two hash
    functions, so its ids are stable from one process to the next. *)
Theorem reconstruct_hash_independent (h1 h2 : bag -> option Z)
    (rows : list row) (nv rv : gset string) :
  natural_ids nv rows = true ->
  reconstruct h1 rows nv rv = reconstruct h2 rows nv rv.
Proof.
  intros H. unfold reconstruct, process_rows. f_equal.
  apply fold_left_ext_in. intros st record Hr. unfold process_record.
  apply fold_left_ext_in. intros st' [key v] He.
  apply process_entry_natural.
  unfold natural_ids in H. rewrite forallb_forall in H.
  specialize (H record (proj1 (list_elem_of_In _ _) Hr)). rewrite forallb_forall in H.
  exact (H (key, v) (proj1 (list_elem_of_In _ _) He)).
Qed.

Lemma payload_nodes_sound_example :
  exists record key d p,
    record ∈ [[("m", VDict [("title", VStr "Big")]); ("m_labels", VList [VStr "Movie"])]] /\
    (key, VDict d) ∈ record /\ key ∈ ({["m"]} : gset string) /\
    endswith key "_labels" = false /\
    node_id_prop (fun _ => None) d = Some p /\
    {| n_id := "m_Big"; n_label := "Big"; n_labels := [VStr "Movie"];
       n_properties := [("title", VStr "Big")] |}
    = {| n_id := key ++ "_" ++ py_str p;
         n_label := py_str (display_label key d);
         n_labels := default [VStr (capitalize key)] (collect_labels record !! key);
         n_properties := serialize_items d |}.
Proof.
  apply (payload_nodes_sound (fun _ => None)
           [[("m", VDict [("title", VStr "Big")]); ("m_labels", VList [VStr "Movie"])]]
           {["m"]} ∅).
  vm_compute. apply list_elem_of_here.
Defined.

Lemma reconstruct_hash_independent_example :
  reconstruct (fun _ => Some 1%Z)
    [[("p", VDict [("name", VStr "Tom Hanks")]); ("x", VDict [("born", VInt 1956)])]]
    {["p"]} ∅
  = reconstruct (fun _ => None)
      [[("p", VDict [("name", VStr "Tom Hanks")]); ("x", VDict [("born", VInt 1956)])]]
      {["p"]} ∅.
Proof.
  apply (reconstruct_hash_independent (fun _ => Some 1%Z) (fun _ => None)).
  vm_compute. reflexivity.
Defined.

End ReconstructorMore.

(** ** A name bound both as a node and as a relationship *)
Module SharedNames.
Import Text Value Serializer Reconstructor ReconstructorFacts ReconstructorMore.

Section WithHash.

Variable hash_items : bag -> option Z.


End WithHash.



End SharedNames.

(** ** Label columns *)
Module LabelColumns.
Import Text Value Reconstructor.

Lemma length_app (s t : string) :
  String.length (s ++ t) = String.length s + String.length t.
Proof.
  induction s as [| c s IH]; [reflexivity |].
  change (S (String.length (s ++ t)) = S (String.length s + String.length t)).
  now rewrite IH.
Qed.

Lemma drop_app (k t : string) : drop (String.length k) (k ++ t) = t.
Proof. induction k as [| c k IH]; [reflexivity | exact IH]. Qed.

Lemma substring_app (k t : string) : substring 0 (String.length k) (k ++ t) = k.
Proof.
  induction k as [| c k IH]; [now destruct t |].
  change (String c (substring 0 (String.length k) (k ++ t)) = String c k).
  now rewrite IH.
Qed.

Lemma substring_drop (n : nat) (s : string) : substring 0 n s ++ drop n s = s.
Proof.
  revert s. induction n as [| n IH]; intros s; [now destruct s |].
  destruct s as [| c s]; [reflexivity |].
  change (String c (substring 0 n s ++ drop n s) = String c s).
  now rewrite IH.
Qed.

Lemma slice_to_minus (s : string) (m : nat) :
  0 < m <= String.length s ->
  slice_to s (- Z.of_nat m) = substring 0 (String.length s - m) s.
Proof.
  intros Hm. unfold slice_to, slice.
  assert (Ha : clip (len s) 0 = 0%Z).
  { unfold clip, len. rewrite Z.ltb_irrefl. lia. }
  assert (Hb : clip (len s) (- Z.of_nat m) = Z.of_nat (String.length s - m)).
  { unfold clip, len. destruct (Z.ltb_spec (- Z.of_nat m) 0); lia. }
  rewrite Ha, Hb, Z.sub_0_r, Nat2Z.id. reflexivity.
Qed.

(** A column named after a variable with the label suffix is a label
    column, and cutting the suffix gives the variable back. *)
Lemma labels_column_name (k : string) :
  endswith (k ++ "_labels") "_labels" = true /\ slice_to (k ++ "_labels") (-7) = k.
Proof.
  split.
  - unfold endswith. rewrite length_app. cbn [String.length].
    rewrite (proj2 (Nat.leb_le _ _)) by lia.
    replace (String.length k + 7 - 7) with (String.length k) by lia.
    rewrite drop_app. reflexivity.
  - rewrite (slice_to_minus _ 7) by (rewrite length_app; cbn [String.length]; lia).
    rewrite length_app. cbn [String.length].
    replace (String.length k + 7 - 7) with (String.length k) by lia.
    apply substring_app.
Qed.

(** A label column is named after the text left when its suffix is cut. *)
Lemma labels_column_inv (key : string) :
  endswith key "_labels" = true -> key = slice_to key (-7) ++ "_labels".
Proof.
  unfold endswith. cbn [String.length]. intros H. apply andb_prop in H as [Hlen Heq].
  apply Nat.leb_le in Hlen. apply String.eqb_eq in Heq.
  rewrite (slice_to_minus _ 7) by lia.
  rewrite <- Heq. symmetry. apply substring_drop.
Qed.

(** One step of the first pass. *)
Definition collect_step (labels_map : gmap string (list value)) (entry : string * value)
    : gmap string (list value) :=
  let '(key, value) := entry in
  match value with
  | VList l =>
      if endswith key "_labels" then <[slice_to key (-7) := l]> labels_map else labels_map
  | _ => labels_map
  end.

Lemma collect_labels_fold (record : row) :
  collect_labels record = fold_left collect_step record ∅.
Proof. reflexivity. Qed.

Lemma collect_step_other (m : gmap string (list value)) (key k : string) (v : value) :
  key <> k ++ "_labels" -> collect_step m (key, v) !! k = m !! k.
Proof.
  intros Hne. unfold collect_step. destruct v; try reflexivity.
  destruct (endswith key "_labels") eqn:E; [| reflexivity].
  apply lookup_insert_ne. intros Hk. apply Hne.
  rewrite (labels_column_inv key E). now rewrite Hk.
Qed.

Lemma collect_absent (record : row) (k : string) :
  k ++ "_labels" ∉ map fst record ->
  forall m, fold_left collect_step record m !! k = m !! k.
Proof.
  induction record as [| [key v] record IH]; intros Hk m; [reflexivity |].
  cbn [fold_left map fst] in *.
  rewrite IH by (intros H; apply Hk; now apply list_elem_of_further).
  apply collect_step_other. intros ->. apply Hk, list_elem_of_here.
Qed.

Lemma collect_present (record : row) (k : string) (l : list value) :
  NoDup (map fst record) ->
  (k ++ "_labels", VList l) ∈ record ->
  forall m, fold_left collect_step record m !! k = Some l.
Proof.
  induction record as [| [key v] record IH]; intros Hnd Hin m; [inversion Hin |].
  cbn [map fst] in Hnd. apply NoDup_cons in Hnd as [Hhead Hnd].
  cbn [fold_left]. apply elem_of_cons in Hin as [Hin | Hin].
  - inversion Hin; subst. rewrite collect_absent by exact Hhead.
    unfold collect_step. destruct (labels_column_name k) as [-> ->].
    apply lookup_insert_eq.
  - now apply IH.
Qed.

Lemma collect_found (record : row) (k : string) (l : list value) :
  forall m,
    fold_left collect_step record m !! k = Some l ->
    (k ++ "_labels", VList l) ∈ record \/ m !! k = Some l.
Proof.
  induction record as [| [key v] record IH]; intros m H; [now right |].
  cbn [fold_left] in H. apply IH in H as [H | H]; [left; now apply list_elem_of_further |].
  destruct (decide (key = k ++ "_labels")) as [-> | Hne].
  - unfold collect_step in H. destruct v; try now right.
    destruct (labels_column_name k) as [E1 E2]. rewrite E1, E2 in H.
    rewrite lookup_insert_eq in H. inversion H; subst. left. apply list_elem_of_here.
  - right. now rewrite collect_step_other in H.
Qed.

Lemma row_column_unique (record : row) (key : string) (v1 v2 : value) :
  NoDup (map fst record) -> (key, v1) ∈ record -> (key, v2) ∈ record -> v1 = v2.
Proof.
  induction record as [| [k v] record IH]; intros Hnd H1 H2; [inversion H1 |].
  cbn [map fst] in Hnd. apply NoDup_cons in Hnd as [Hhead Hnd].
  apply elem_of_cons in H1 as [H1 | H1]; apply elem_of_cons in H2 as [H2 | H2].
  - congruence.
  - inversion H1; subst. exfalso. apply Hhead.
    apply list_elem_of_fmap. now exists (k, v2).
  - inversion H2; subst. exfalso. apply Hhead.
    apply list_elem_of_fmap. now exists (k, v1).
  - now apply IH.
Qed.

(** X6.  In a row, whose column names are distinct, the labels the first
    pass records for a variable are the list found in the column named
    after the variable with the label suffix, and the node made for the
    variable carries that list as its labels; nothing is recorded for a
    variable without such a column, or whose column is not a list, and the
    node then falls back on its capitalized variable name as its only
    label (capitalized as ASCII text is: first letter upper-cased, the
    others lower-cased). *)
Theorem collect_labels_lookup (record : row) (k : string) :
  NoDup (map fst record) ->
  (forall l,
     (collect_labels record !! k = Some l <-> (k ++ "_labels", VList l) ∈ record) /\
     ((k ++ "_labels", VList l) ∈ record ->
      forall node_id d, n_labels (node_of (collect_labels record) k node_id d) = l)) /\
  ((k ++ "_labels" ∉ map fst record \/
    exists v, (k ++ "_labels", v) ∈ record /\ forall l, v <> VList l) ->
   collect_labels record !! k = None /\
   (isascii k = true ->
    forall node_id d,
      n_labels (node_of (collect_labels record) k node_id d) = [VStr (capitalize k)])).
Proof.
  intros Hnd. rewrite collect_labels_fold.
  assert (Hiff : forall l,
            fold_left collect_step record ∅ !! k = Some l <->
            (k ++ "_labels", VList l) ∈ record).
  { intros l. split.
    - intros H. apply collect_found in H as [H | H]; [exact H | now rewrite lookup_empty in H].
    - intros H. now apply collect_present. }
  split.
  - intros l. split; [apply Hiff |].
    intros Hin node_id d. cbn [node_of n_labels]. now rewrite (proj2 (Hiff l) Hin).
  - intros Hno.
    assert (Hnone : fold_left collect_step record ∅ !! k = None).
    { destruct Hno as [Habs | (v & Hin & Hv)]; [now rewrite collect_absent |].
      apply eq_None_not_Some. intros [l E]. apply Hiff in E.
      apply (Hv l). symmetry. now apply (row_column_unique record (k ++ "_labels")). }
    split; [exact Hnone |].
    intros _ node_id d. cbn [node_of n_labels]. now rewrite Hnone.
Qed.

Lemma collect_labels_lookup_example :
  (forall l,
     (collect_labels [("m", VDict [("title", VStr "Big")]); ("m_labels", VList [VStr "Movie"])]
        !! "m" = Some l
      <-> ("m" ++ "_labels", VList l)
            ∈ [("m", VDict [("title", VStr "Big")]); ("m_labels", VList [VStr "Movie"])]) /\
     (("m" ++ "_labels", VList l)
        ∈ [("m", VDict [("title", VStr "Big")]); ("m_labels", VList [VStr "Movie"])] ->
      forall node_id d,
        n_labels
          (node_of
             (collect_labels
                [("m", VDict [("title", VStr "Big")]); ("m_labels", VList [VStr "Movie"])])
             "m" node_id d) = l)) /\
  (("m" ++ "_labels"
      ∉ map fst [("m", VDict [("title", VStr "Big")]); ("m_labels", VList [VStr "Movie"])] \/
    exists v,
      ("m" ++ "_labels", v)
        ∈ [("m", VDict [("title", VStr "Big")]); ("m_labels", VList [VStr "Movie"])] /\
      forall l, v <> VList l) ->
   collect_labels [("m", VDict [("title", VStr "Big")]); ("m_labels", VList [VStr "Movie"])]
     !! "m" = None /\
   (isascii "m" = true ->
    forall node_id d,
      n_labels
        (node_of
           (collect_labels
              [("m", VDict [("title", VStr "Big")]); ("m_labels", VList [VStr "Movie"])])
           "m" node_id d) = [VStr (capitalize "m")])).
Proof.
  apply (collect_labels_lookup
           [("m", VDict [("title", VStr "Big")]); ("m_labels", VList [VStr "Movie"])] "m").
  cbn [map fst]. apply NoDup_cons. split.
  - intros H. apply list_elem_of_singleton in H. discriminate H.
  - apply NoDup_singleton.
Defined.

End LabelColumns.

(** ** More on the orchestrator *)
Module OrchestratorMore.
Import Text Value Reconstructor Orchestrator.

Lemma read_steps_query_text h1 g1 h2 g2 (steps : list step) :
  (read_steps h1 g1 steps).1 = (read_steps h2 g2 steps).1.
Proof.
  unfold read_steps. destruct steps as [| [[c |] ctx | rows |] rest]; try reflexivity.
  destruct (negb (has_rows ctx) && (1 <? length (StepDict (Some c) ctx :: rest))%nat).
  - destruct rest as [| [q1 ctx1 | rows1 |] rest'].
    + destruct ctx as [[| r rs] |]; reflexivity.
    + destruct ctx1 as [[| r rs] |]; reflexivity.
    + destruct rows1 as [| r rs]; reflexivity.
    + destruct ctx as [[| r rs] |]; reflexivity.
  - destruct ctx as [[| r rs] |]; reflexivity.
Qed.

Lemma read_steps_first h g (steps : list step) :
  (read_steps h g steps).1 =
    match steps with
    | StepDict (Some c) _ :: _ => c
    | _ => "No query generated."
    end.
Proof.
  unfold read_steps. destruct steps as [| [[c |] ctx | rows |] rest]; try reflexivity.
  destruct (negb (has_rows ctx) && (1 <? length (StepDict (Some c) ctx :: rest))%nat).
  - destruct rest as [| [q1 ctx1 | rows1 |] rest'].
    + destruct ctx as [[| r rs] |]; reflexivity.
    + destruct ctx1 as [[| r rs] |]; reflexivity.
    + destruct rows1 as [| r rs]; reflexivity.
    + destruct ctx as [[| r rs] |]; reflexivity.
  - destruct ctx as [[| r rs] |]; reflexivity.
Qed.

Lemma read_steps_graph h g (steps : list step) (p : GraphPayload) :
  (read_steps h g steps).2 = Some p ->
  exists c ctx rest r rs,
    steps = StepDict (Some c) ctx :: rest /\
    _extract_graph_data h g (r :: rs) c = Some p.
Proof.
  unfold read_steps. destruct steps as [| [[c |] ctx | rows |] rest]; try discriminate.
  intros H. exists c, ctx, rest.
  destruct (negb (has_rows ctx) && (1 <? length (StepDict (Some c) ctx :: rest))%nat).
  - destruct rest as [| [q1 ctx1 | rows1 |] rest'].
    + destruct ctx as [[| r rs] |]; try discriminate. now exists r, rs.
    + destruct ctx1 as [[| r rs] |]; try discriminate. now exists r, rs.
    + destruct rows1 as [| r rs]; try discriminate. now exists r, rs.
    + destruct ctx as [[| r rs] |]; try discriminate. now exists r, rs.
  - destruct ctx as [[| r rs] |]; try discriminate. now exists r, rs.
Qed.

Lemma query_returns h g ainvoke question (r : chain_result) :
  ainvoke question = Returns r ->
  query h g (Some ainvoke) question =
    Returned
      [("answer", FValue (default (VStr "No answer found.") (result r)));
       ("generated_cypher", FStr (read_steps h g (intermediate_steps r)).1);
       ("graph_data", from_option FGraph FNone (read_steps h g (intermediate_steps r)).2);
       ("error", FNone)].
Proof.
  intros H. unfold query. rewrite H.
  now destruct (read_steps h g (intermediate_steps r)).
Qed.

(** X7.  The visualization is best effort: whether [query] returns, and the
    [answer], the [generated_cypher] and the [error] of the response it
    returns, do not depend on the graph store's answers to the rewritten
    query nor on the hash of the interpreter; a store that fails, or any
    other store, gives the same three fields. *)
Theorem query_fields_independent_of_store h1 g1 h2 g2 chain question :
  (exists e,
     query h1 g1 chain question = Propagated e /\ query h2 g2 chain question = Propagated e) \/
  (exists resp1 resp2,
     query h1 g1 chain question = Returned resp1 /\
     query h2 g2 chain question = Returned resp2 /\
     lookup resp1 "answer" = lookup resp2 "answer" /\
     lookup resp1 "generated_cypher" = lookup resp2 "generated_cypher" /\
     lookup resp1 "error" = lookup resp2 "error").
Proof.
  destruct chain as [ainvoke |]; [| right; eexists _, _; now repeat split].
  destruct (ainvoke question) as [r | e | e] eqn:E.
  - right. rewrite !(query_returns _ _ _ _ _ E). eexists _, _.
    split; [reflexivity |]. split; [reflexivity |]. cbn.
    now rewrite (read_steps_query_text h1 g1 h2 g2).
  - right. unfold query. rewrite E.
    destruct (contains syntax_error_marker e); eexists _, _; now repeat split.
  - left. exists e. unfold query. now rewrite E.
Qed.

(** X8.  A response carries graph data only when the chain returned, its
    first step is a dict holding the generated query, that query contains
    the match keyword, the store answered the rewritten query, and the
    reconstruction of the store's rows from the query's variables is the
    payload, which is not empty. *)
Theorem query_graph_data_origin h g chain question resp (p : GraphPayload) :
  query h g chain question = Returned resp ->
  lookup resp "graph_data" = Some (FGraph p) ->
  exists ainvoke r c ctx rest rows,
    chain = Some ainvoke /\ ainvoke question = Returns r /\
    intermediate_steps r = StepDict (Some c) ctx :: rest /\
    QueryFacts.has_match_keyword c /\
    g (Rewriter._create_graph_query c) = Some rows /\
    reconstruct h rows (Extractor._extract_variables_from_pattern c).1
      (Extractor._extract_variables_from_pattern c).2 = Some p /\
    length (nodes p) + length (relationships p) <> 0.
Proof.
  destruct chain as [ainvoke |]; [| intros H; inversion H; discriminate].
  destruct (ainvoke question) as [r | e | e] eqn:E.
  - rewrite (query_returns _ _ _ _ _ E). intros H; inversion H; subst resp; clear H. cbn.
    destruct (read_steps h g (intermediate_steps r)).2 as [p' |] eqn:Ep; [| discriminate].
    intros H. inversion H; subst p'.
    apply read_steps_graph in Ep as (c & ctx & rest & r0 & rs & Hsteps & Hx).
    unfold _extract_graph_data in Hx.
    destruct (contains "MATCH" (upper c)) eqn:Hm; [| discriminate]. cbn [negb] in Hx.
    destruct (g (Rewriter._create_graph_query c)) as [rows |] eqn:Hg; [| discriminate].
    exists ainvoke, r, c, ctx, rest, rows.
    destruct (Extractor._extract_variables_from_pattern c) as [nv rv]. cbn [fst snd].
    repeat split; auto.
    + now apply QueryFacts.has_match_keyword_true.
    + unfold reconstruct in Hx. now apply ReconstructorFacts.finish_some in Hx.
  - unfold query. rewrite E.
    destruct (contains syntax_error_marker e); intros H; inversion H; discriminate.
  - unfold query. rewrite E. discriminate.
Qed.

(** X9.  When the chain returns, [query] returns a response whose
    [generated_cypher] is the query text of the first step when that step is
    a dict holding one, and the fixed text [No query generated.] otherwise
    (no steps, a first step that is not a dict, or one without a query); in
    the latter case no graph data is extracted, whatever the later steps
    hold. *)
Theorem query_generated_cypher h g ainvoke question (r : chain_result) :
  ainvoke question = Returns r ->
  exists resp,
    query h g (Some ainvoke) question = Returned resp /\
    lookup resp "generated_cypher" =
      Some (FStr match intermediate_steps r with
                 | StepDict (Some c) _ :: _ => c
                 | _ => "No query generated."
                 end) /\
    ((forall c ctx rest, intermediate_steps r <> StepDict (Some c) ctx :: rest) ->
     lookup resp "graph_data" = Some FNone).
Proof.
  intros E. rewrite (query_returns _ _ _ _ _ E). eexists. split; [reflexivity |]. cbn. split.
  - now rewrite read_steps_first.
  - intros Hno. destruct (read_steps h g (intermediate_steps r)).2 as [p |] eqn:Ep; [| reflexivity].
    apply read_steps_graph in Ep as (c & ctx & rest & _ & _ & Hsteps & _).
    now apply Hno in Hsteps.
Qed.

(** X10.  The rows the chain itself collected only decide whether an
    extraction is attempted: two chain results with the same answer and the
    same first query, each with a non-empty context in its first step, give
    the same response, whatever those rows and the later steps are.  The
    graph data comes from running the rewritten query again. *)
Theorem query_ignores_context_rows h g ainvoke ainvoke' question a c ctx ctx' rest rest' :
  ainvoke question
    = Returns {| result := a; intermediate_steps := StepDict (Some c) (Some ctx) :: rest |} ->
  ainvoke' question
    = Returns {| result := a; intermediate_steps := StepDict (Some c) (Some ctx') :: rest' |} ->
  ctx <> [] -> ctx' <> [] ->
  query h g (Some ainvoke) question = query h g (Some ainvoke') question.
Proof.
  intros E E' Hc Hc'. rewrite (query_returns _ _ _ _ _ E), (query_returns _ _ _ _ _ E').
  cbn [result intermediate_steps]. unfold read_steps.
  destruct ctx as [| r0 rs]; [contradiction |]. destruct ctx' as [| r0' rs']; [contradiction |].
  reflexivity.
Qed.

Lemma query_graph_data_origin_example :
  exists ainvoke r c ctx rest rows,
    Some (fun _ : string =>
            Returns {| result := Some (VStr "Tom Hanks acted in Big.");
                       intermediate_steps :=
                         [StepDict (Some "MATCH (m:Movie) RETURN m.title")
                            (Some [[("m.title", VStr "Big")]])] |})
      = Some ainvoke /\
    ainvoke "Which movies?" = Returns r /\
    intermediate_steps r = StepDict (Some c) ctx :: rest /\
    QueryFacts.has_match_keyword c /\
    (fun _ => Some [[("m", VDict [("title", VStr "Big")]); ("m_labels", VList [VStr "Movie"])]])
      (Rewriter._create_graph_query c) = Some rows /\
    reconstruct (fun _ => None) rows (Extractor._extract_variables_from_pattern c).1
      (Extractor._extract_variables_from_pattern c).2
      = Some {| nodes := [{| n_id := "m_Big"; n_label := "Big"; n_labels := [VStr "Movie"];
                             n_properties := [("title", VStr "Big")] |}];
                relationships := [] |} /\
    length (nodes {| nodes := [{| n_id := "m_Big"; n_label := "Big"; n_labels := [VStr "Movie"];
                                  n_properties := [("title", VStr "Big")] |}];
                     relationships := [] |})
    + length (relationships
                {| nodes := [{| n_id := "m_Big"; n_label := "Big"; n_labels := [VStr "Movie"];
                                n_properties := [("title", VStr "Big")] |}];
                   relationships := [] |}) <> 0.
Proof.
  apply (query_graph_data_origin (fun _ => None)
           (fun _ => Some [[("m", VDict [("title", VStr "Big")]);
                            ("m_labels", VList [VStr "Movie"])]])
           (Some (fun _ : string =>
                    Returns {| result := Some (VStr "Tom Hanks acted in Big.");
                               intermediate_steps :=
                                 [StepDict (Some "MATCH (m:Movie) RETURN m.title")
                                    (Some [[("m.title", VStr "Big")]])] |}))
           "Which movies?"
           [("answer", FStr "Tom Hanks acted in Big.");
            ("generated_cypher", FStr "MATCH (m:Movie) RETURN m.title");
            ("graph_data",
             FGraph {| nodes := [{| n_id := "m_Big"; n_label := "Big";
                                    n_labels := [VStr "Movie"];
                                    n_properties := [("title", VStr "Big")] |}];
                       relationships := [] |});
            ("error", FNone)]).
  - vm_compute. reflexivity.
  - reflexivity.
Defined.

Lemma query_generated_cypher_example :
  exists resp,
    query (fun _ => None) (fun _ => None)
      (Some (fun _ : string =>
               Returns {| result := Some (VStr "42"); intermediate_steps := [StepList []] |}))
      "How many?" = Returned resp /\
    lookup resp "generated_cypher" = Some (FStr "No query generated.") /\
    ((forall c ctx rest, [StepList []] <> StepDict (Some c) ctx :: rest) ->
     lookup resp "graph_data" = Some FNone).
Proof.
  apply (query_generated_cypher (fun _ => None) (fun _ => None)
           (fun _ : string =>
              Returns {| result := Some (VStr "42"); intermediate_steps := [StepList []] |})
           "How many?"
           {| result := Some (VStr "42"); intermediate_steps := [StepList []] |}).
  reflexivity.
Defined.

Lemma query_ignores_context_rows_example :
  query (fun _ => None) (fun _ => Some [[("m", VDict [("title", VStr "Big")])]])
    (Some (fun _ : string =>
             Returns {| result := Some (VStr "Big");
                        intermediate_steps :=
                          [StepDict (Some "MATCH (m) RETURN m.title")
                             (Some [[("m.title", VStr "Big")]])] |}))
    "Which?"
  = query (fun _ => None) (fun _ => Some [[("m", VDict [("title", VStr "Big")])]])
      (Some (fun _ : string =>
               Returns {| result := Some (VStr "Big");
                          intermediate_steps :=
                            [StepDict (Some "MATCH (m) RETURN m.title")
                               (Some [[("x", VInt 1)]; []]); StepOther] |}))
      "Which?".
Proof.
  apply (query_ignores_context_rows (fun _ => None)
           (fun _ => Some [[("m", VDict [("title", VStr "Big")])]])
           (fun _ : string =>
              Returns {| result := Some (VStr "Big");
                         intermediate_steps :=
                           [StepDict (Some "MATCH (m) RETURN m.title")
                              (Some [[("m.title", VStr "Big")]])] |})
           (fun _ : string =>
              Returns {| result := Some (VStr "Big");
                         intermediate_steps :=
                           [StepDict (Some "MATCH (m) RETURN m.title")
                              (Some [[("x", VInt 1)]; []]); StepOther] |})
           "Which?" (Some (VStr "Big")) "MATCH (m) RETURN m.title"
           [[("m.title", VStr "Big")]] [[("x", VInt 1)]; []] [] [StepOther]);
    [reflexivity | reflexivity | discriminate | discriminate].
Defined.

End OrchestratorMore.

(** ** Startup and the endpoints *)
Module ApiFacts.
Import Text Value Reconstructor Orchestrator Service Api.

(** The text of an exception names the store's syntax error. *)
Definition mentions_syntax_error (e : string) : Prop :=
  exists a b, e = a ++ "Neo.ClientError.Statement.SyntaxError" ++ b.

Definition unavailable {A : Type} : http A :=
  HTTPException 503
    (FStr "Service Unavailable: The QA chain is not initialized. Check server logs.").

Section Collaborators.

Context {LLM Graph : Type}.
Variable env : Environment LLM Graph.

(** The service object after a start in which all four steps worked. *)
Definition ready (settings : Settings) (l : LLM) (g : Graph) (schema : string)
    (c : string -> chain_outcome) : GraphQAService LLM Graph :=
  {| config := settings; llm := Some l; graph := Some g; chain := Some c;
     schema_cache := Some schema |}.

(** The four steps of the start all worked. *)
Definition all_connected (settings : Settings) (l : LLM) (g : Graph) (schema : string)
    (c : string -> chain_outcome) : Prop :=
  ChatGroq env (GROQ_API_KEY settings) (GROQ_MODEL settings) = Some l /\
  Neo4jGraph env (NEO4J_URI settings) (NEO4J_USERNAME settings)
    (NEO4J_PASSWORD settings) (NEO4J_DATABASE settings) = Some g /\
  refresh_schema env g = Some schema /\
  from_llm env g l = Some c.

Lemma startup_ready (settings : Settings) l g schema c :
  all_connected settings l g schema c ->
  startup env settings = Some (ready settings l g schema c).
Proof.
  intros (H1 & H2 & H3 & H4).
  unfold startup, connect_and_initialize. cbn [config __init__ set_llm].
  rewrite H1. cbn [config set_llm]. rewrite H2, H3.
  cbn [graph llm set_schema_cache set_graph set_llm]. now rewrite H4.
Qed.

Lemma startup_cases (settings : Settings) :
  (exists l g schema c,
     all_connected settings l g schema c /\
     startup env settings = Some (ready settings l g schema c)) \/
  (exists service, startup env settings = Some service /\ chain service = None).
Proof.
  unfold startup, connect_and_initialize, all_connected. cbn [config __init__ set_llm].
  destruct (ChatGroq env _ _) as [l |]; [| right; now eexists].
  cbn [config set_llm].
  destruct (Neo4jGraph env _ _ _ _) as [g |]; [| right; now eexists].
  destruct (refresh_schema env g) as [schema |] eqn:Es; [| right; now eexists].
  cbn [graph llm set_schema_cache set_graph set_llm].
  destruct (from_llm env g l) as [c |] eqn:Ec; [| right; now eexists].
  left. exists l, g, schema, c. now repeat split.
Qed.

(** X11.  After the start, the dependency of the endpoints hands out the
    service exactly when the language-model client, the graph client, the
    schema refresh and the chain construction all worked, and the service
    then holds all four; when any of them raised, the failure is swallowed
    at startup and every later request to an endpoint behind the dependency
    is answered 503. *)
Theorem startup_availability (settings : Settings) :
  (forall service,
     get_qa_service (startup env settings) = Respond service <->
     exists l g schema c,
       all_connected settings l g schema c /\ service = ready settings l g schema c) /\
  ((forall l g schema c, ~ all_connected settings l g schema c) ->
   forall question,
     get_qa_service (startup env settings) = unavailable /\
     status_endpoint (startup env settings) = unavailable /\
     ask_endpoint env (startup env settings) question = unavailable).
Proof.
  split.
  - intros service.
    destruct (startup_cases settings) as [(l & g & schema & c & Hall & Hs) | (s0 & Hs & Hc)].
    + rewrite Hs. cbn. split.
      * intros H. inversion H. now exists l, g, schema, c.
      * intros (l' & g' & schema' & c' & Hall' & ->).
        apply startup_ready in Hall'. rewrite Hs in Hall'. now inversion Hall'.
    + rewrite Hs. unfold get_qa_service. rewrite Hc. split; [discriminate |].
      intros (l & g & schema & c & Hall & ->).
      apply startup_ready in Hall. rewrite Hs in Hall. inversion Hall; subst s0. discriminate.
  - intros Hnone question.
    destruct (startup_cases settings) as [(l & g & schema & c & Hall & _) | (s0 & -> & Hc)].
    + now apply Hnone in Hall.
    + unfold ask_endpoint, status_endpoint, get_qa_service. now rewrite Hc.
Qed.

(** X12.  After the start, the status endpoint never reports a degraded
    service: it answers 503, or a status in which the store is connected,
    the model is initialized and the chain is ready, with the configured
    model name; the schema it shows is the one read from the store, except
    that an empty schema is shown as [Not connected]. *)
Theorem status_endpoint_all_or_nothing (settings : Settings) :
  status_endpoint (startup env settings) = unavailable \/
  exists g schema status,
    refresh_schema env g = Some schema /\
    status_endpoint (startup env settings) = Respond status /\
    neo4j_connected status = true /\
    llm_initialized status = true /\
    qa_chain_ready status = true /\
    llm_model_name status = GROQ_MODEL settings /\
    neo4j_schema status = (if String.eqb schema "" then "Not connected" else schema).
Proof.
  destruct (startup_cases settings) as [(l & g & schema & c & Hall & ->) | (s0 & -> & Hc)].
  - right. exists g, schema, (get_status (ready settings l g schema c)).
    destruct Hall as (_ & _ & H3 & _). repeat split; auto.
  - left. unfold status_endpoint, get_qa_service. now rewrite Hc.
Qed.

Lemma ask_question_query (service : GraphQAService LLM Graph) (question : string) result :
  question <> "" ->
  Service.query env service question = Returned result ->
  ask_question env service question =
    if field_truthy (lookup result "error")
    then HTTPException 500 (default FNone (lookup result "error"))
    else
      match make_response env (default (FStr "No answer provided.") (lookup result "answer"))
              (lookup result "generated_cypher") (lookup result "graph_data") with
      | Some body => Respond body
      | None =>
          HTTPException 500
            (FStr ("An unexpected server error occurred: " ++ validation_error env result))
      end.
Proof.
  intros Hq Hr. unfold ask_question. rewrite Hr.
  destruct (String.eqb question "") eqn:E; [| reflexivity].
  now apply String.eqb_eq in E.
Qed.

(** X13.  When the chain raises an instance of [Exception] on a non-empty
    question, the [/ask] endpoint answers 500, never 200, and its detail is
    the message of the service: the fixed rephrase message when the
    exception's text names the store's syntax error, and
    [An error occurred: ] followed by the text otherwise.  When the chain
    raises outside [Exception] (a cancellation, for one), the endpoint gives
    no answer at all: the exception passes the handlers of the service and
    of the endpoint. *)
Theorem ask_question_chain_error (service : GraphQAService LLM Graph) ainvoke question :
  chain service = Some ainvoke ->
  question <> "" ->
  (forall e,
     ainvoke question = Raises e ->
     (mentions_syntax_error e ->
      ask_question env service question =
        HTTPException 500
          (FStr "The LLM generated an invalid Cypher query. Please try rephrasing your question.")) /\
     (~ mentions_syntax_error e ->
      ask_question env service question =
        HTTPException 500 (FStr ("An error occurred: " ++ e)))) /\
  (forall e,
     ainvoke question = RaisesBase e ->
     ask_question env service question = Unhandled e).
Proof.
  intros Hc Hq. split.
  - intros e He.
    assert (Hquery :
      Service.query env service question =
        Returned (if contains syntax_error_marker e
                  then [("error", FStr rephrase_message)]
                  else [("error", FStr ("An error occurred: " ++ e))])).
    { unfold Service.query, Orchestrator.query. rewrite Hc, He.
      now destruct (contains syntax_error_marker e). }
    rewrite (ask_question_query _ _ _ Hq Hquery).
    unfold mentions_syntax_error, syntax_error_marker, rephrase_message.
    destruct (contains "Neo.ClientError.Statement.SyntaxError" e) eqn:Em.
    + split; [reflexivity |]. intros Hn. apply TextFacts.contains_spec in Em. contradiction.
    + split; [| reflexivity]. intros Hm. apply TextFacts.contains_spec in Hm. congruence.
  - intros e He. unfold ask_question.
    destruct (String.eqb question "") eqn:E; [now apply String.eqb_eq in E |].
    unfold Service.query, Orchestrator.query. now rewrite Hc, He.
Qed.

(** The body of a 200 answer of [/ask] for a chain result and an answer
    text. *)
Definition answer_body (service : GraphQAService LLM Graph) (r : chain_result) (a : string)
    : QueryResponse :=
  {| answer := a;
     generated_cypher :=
       Some match intermediate_steps r with
            | StepDict (Some c) _ :: _ => c
            | _ => "No query generated."
            end;
     graph_data :=
       (read_steps (hash_of env) (Service.graph_query env service) (intermediate_steps r)).2;
     error := None |}.

(** X14.  When the chain returns on a non-empty question, the answer of the
    [/ask] endpoint depends on the value under the chain's [result] key and
    not on what the store does with the rewritten query.  When the key is
    missing or holds a text, the endpoint answers 200: the body has that
    text ([No answer found.] for a missing key), the generated query or its
    fixed placeholder, the graph data or null, and a null error.  When the
    key holds [None], the response model refuses the answer and the
    endpoint answers 500 with its unexpected-error message.  For any other
    value the response model's validation of a text field decides between
    the two. *)
Theorem ask_question_chain_result (service : GraphQAService LLM Graph) ainvoke question r :
  chain service = Some ainvoke ->
  question <> "" ->
  ainvoke question = Returns r ->
  exists resp,
    Service.query env service question = Returned resp /\
    (result r = None ->
     ask_question env service question = Respond (answer_body service r "No answer found.")) /\
    (forall a, result r = Some (VStr a) ->
       ask_question env service question = Respond (answer_body service r a)) /\
    (result r = Some VNone ->
     ask_question env service question =
       HTTPException 500
         (FStr ("An unexpected server error occurred: " ++ validation_error env resp))) /\
    (forall v, result r = Some v ->
       ask_question env service question =
         match str_field env (FValue v) with
         | Some a => Respond (answer_body service r a)
         | None =>
             HTTPException 500
               (FStr ("An unexpected server error occurred: " ++ validation_error env resp))
         end).
Proof.
  intros Hc Hq Hr.
  assert (Hquery := OrchestratorMore.query_returns (hash_of env) (Service.graph_query env service)
                      _ _ _ Hr).
  assert (Hquery' : Service.query env service question = Returned
      [("answer", FValue (default (VStr "No answer found.") (result r)));
       ("generated_cypher", FStr (read_steps (hash_of env) (Service.graph_query env service) (intermediate_steps r)).1);
       ("graph_data", from_option FGraph FNone (read_steps (hash_of env) (Service.graph_query env service) (intermediate_steps r)).2);
       ("error", FNone)]).
  { unfold Service.query. rewrite Hc. exact Hquery. }
  eexists. split; [exact Hquery' |].
  rewrite (ask_question_query service question _ Hq Hquery').
  unfold answer_body.
  rewrite <- (OrchestratorMore.read_steps_first (hash_of env) (Service.graph_query env service)).
  set (gc := (read_steps (hash_of env) (Service.graph_query env service) (intermediate_steps r)).1).
  set (gd := (read_steps (hash_of env) (Service.graph_query env service) (intermediate_steps r)).2).
  set (resp := [("answer", _); _; _; _]).
  change (lookup resp "error") with (Some FNone).
  change (lookup resp "answer") with (Some (FValue (default (VStr "No answer found.") (result r)))).
  change (lookup resp "generated_cypher") with (Some (FStr gc)).
  change (lookup resp "graph_data") with (Some (from_option FGraph FNone gd)).
  cbn [field_truthy truthy default from_option id].
  assert (Hmake : forall v,
            make_response env (FValue v) (Some (FStr gc)) (Some (from_option FGraph FNone gd))
            = a ← str_field env (FValue v);
              Some {| answer := a; generated_cypher := Some gc; graph_data := gd;
                      error := None |}).
  { intros v. unfold make_response. destruct (str_field env (FValue v)); [| reflexivity].
    now destruct gd. }
  repeat split.
  - intros ->. now rewrite Hmake.
  - intros a ->. now rewrite Hmake.
  - intros ->. now rewrite Hmake.
  - intros v ->. cbn [from_option id]. rewrite Hmake.
    now destruct (str_field env (FValue v)).
Qed.

(** X15.  The error the service's own [query] returns for a missing chain
    never reaches a client of [/ask]: the dependency answers 503 first, so
    no exception of the endpoint carries that message. *)
Theorem ask_endpoint_never_uninitialized service_instance question status_code detail :
  ask_endpoint env service_instance question = HTTPException status_code detail ->
  detail <> FStr "QA Chain is not initialized. Check server logs.".
Proof.
  unfold ask_endpoint, get_qa_service.
  destruct service_instance as [service |]; [| intros H; inversion H; discriminate].
  destruct (chain service) as [ainvoke |] eqn:Hc; [| intros H; inversion H; discriminate].
  unfold ask_question. destruct (String.eqb question ""); [intros H; inversion H; discriminate |].
  unfold Service.query, Orchestrator.query. rewrite Hc.
  destruct (ainvoke question) as [r | e | e]; [| | discriminate].
  - destruct (read_steps _ _ _) as [c gd].
    cbn [lookup String.eqb Ascii.eqb Bool.eqb field_truthy truthy default].
    destruct (make_response _ _ _ _); intros H; inversion H; discriminate.
  - destruct (contains syntax_error_marker e); cbn; intros H; inversion H; discriminate.
Qed.

End Collaborators.

(** An environment over unit clients, a service whose chain always raises a
    timeout, one whose chain is cancelled, and one whose chain answers
    without steps. *)
Definition example_env : Environment unit unit :=
  {| ChatGroq := fun _ _ => Some tt;
     Neo4jGraph := fun _ _ _ _ => Some tt;
     refresh_schema := fun _ => Some "Node properties: Movie {title: STRING}";
     graph_query_of := fun _ _ => Some [];
     from_llm := fun _ _ => Some (fun _ => Raises "timeout");
     hash_of := fun _ => None;
     validate_str := fun _ => None;
     validation_error := fun _ => "1 validation error for QueryResponse" |}.

Definition example_settings : Settings :=
  {| GROQ_API_KEY := "key"; GROQ_MODEL := "llama3-8b-8192"; NEO4J_URI := "bolt://localhost";
     NEO4J_USERNAME := "neo4j"; NEO4J_PASSWORD := "secret"; NEO4J_DATABASE := "neo4j" |}.

Definition failing_service : GraphQAService unit unit :=
  {| config := example_settings; llm := Some tt; graph := Some tt;
     chain := Some (fun _ => Raises "timeout"); schema_cache := Some "schema" |}.

Definition answering_service : GraphQAService unit unit :=
  {| config := example_settings; llm := Some tt; graph := Some tt;
     chain := Some (fun _ => Returns {| result := Some (VStr "42"); intermediate_steps := [] |});
     schema_cache := Some "schema" |}.

Lemma ask_question_chain_error_example :
  ask_question example_env failing_service "How many?"
    = HTTPException 500 (FStr "An error occurred: timeout").
Proof.
  refine (proj2 (proj1 (ask_question_chain_error example_env failing_service
                          (fun _ => Raises "timeout") "How many?" eq_refl _)
                   "timeout" eq_refl) _).
  - discriminate.
  - intros H. apply TextFacts.contains_spec in H. vm_compute in H. discriminate H.
Defined.

Lemma ask_question_chain_result_example :
  ask_question example_env answering_service "How many?" =
    Respond
      {| answer := "42";
         generated_cypher := Some "No query generated.";
         graph_data := None;
         error := None |}.
Proof.
  destruct (ask_question_chain_result example_env answering_service
              (fun _ => Returns {| result := Some (VStr "42"); intermediate_steps := [] |})
              "How many?" {| result := Some (VStr "42"); intermediate_steps := [] |}
              eq_refl ltac:(discriminate) eq_refl)
    as (resp & _ & _ & Htext & _).
  exact (Htext "42" eq_refl).
Defined.

Lemma ask_endpoint_never_uninitialized_example :
  FStr "Service Unavailable: The QA chain is not initialized. Check server logs."
    <> FStr "QA Chain is not initialized. Check server logs.".
Proof.
  apply (ask_endpoint_never_uninitialized example_env None "How many?" 503
           (FStr "Service Unavailable: The QA chain is not initialized. Check server logs.")).
  reflexivity.
Defined.

End ApiFacts.

(** ** The rewriter and the extractor find the same variables *)
Module ClauseAgreement.
Import Text Regex Clause Rewriter Extractor RegexFacts QueryFacts.

(** A pattern none of whose literals is a white-space character. *)
Fixpoint no_space (r : re) : bool :=
  match r with
  | Lit c => negb (is_space c)
  | Word => true
  | Cat a b => no_space a && no_space b
  | Opt a | Star a | Grp a => no_space a
  end.

Fixpoint all_space (w : string) : bool :=
  match w with
  | EmptyString => true
  | String c t => is_space c && all_space t
  end.

Lemma space_not_word (c : ascii) : is_space c = true -> is_word c = false.
Proof.
  destruct c as [[] [] [] [] [] [] [] []]; vm_compute; intros; congruence.
Qed.

Lemma substring_app_le (n : nat) (u w : string) :
  n <= String.length u -> substring 0 n (u ++ w) = substring 0 n u.
Proof.
  revert u. induction n as [| n IH]; intros u Hn.
  - now destruct u, w.
  - destruct u as [| c u]; [cbn in Hn; lia |].
    change (String c (substring 0 n (u ++ w)) = String c (substring 0 n u)).
    rewrite IH; [reflexivity |]. cbn in Hn. lia.
Qed.

Lemma consumed_app (u u' w : string) : consumed (u ++ w) (u' ++ w) = consumed u u'.
Proof.
  unfold consumed. rewrite !LabelColumns.length_app.
  replace (String.length u + String.length w - (String.length u' + String.length w))
    with (String.length u - String.length u') by lia.
  apply substring_app_le. lia.
Qed.

(** Mapping the answers of the continuation maps the result. *)
Lemma rmatch_map {A B : Type} (f : A -> B) (r : re) :
  forall s cap (k : string -> option string -> option A),
    rmatch r s cap (fun s' c => f <$> k s' c) = f <$> rmatch r s cap k.
Proof.
  induction r as [c | | a IHa b IHb | a IHa | a IHa | a IHa]; intros s cap k; cbn [rmatch].
  - destruct s as [| c' t]; [reflexivity |]. now destruct (Ascii.eqb c c').
  - destruct s as [| c' t]; [reflexivity |]. now destruct (is_word c').
  - rewrite <- IHa. apply rmatch_ext. intros s' c. apply IHb.
  - rewrite IHa. now destruct (rmatch a s cap k).
  - generalize (String.length s) as n. intros n. revert s cap.
    induction n as [| n IH]; intros s cap; cbn [star_loop]; [reflexivity |].
    rewrite (rmatch_ext a s cap _
               (fun s' cap' =>
                  f <$> (if (String.length s' <? String.length s)%nat
                         then star_loop (rmatch a) k n s' cap' else None))).
    + rewrite IHa. now destruct (rmatch a s cap _).
    + intros s' c. rewrite IH. now destruct (_ <? _)%nat.
  - rewrite <- IHa. reflexivity.
Qed.

(** White space after the text is never consumed: on [u ++ w], with [w]
    made of white space, a pattern without white-space literals matches as
    on [u]. *)
Lemma rmatch_trailing {A : Type} (w : string) (r : re) :
  all_space w = true -> no_space r = true ->
  forall u cap (k : string -> option string -> option A),
    rmatch r (u ++ w) cap k = rmatch r u cap (fun u' c => k (u' ++ w) c).
Proof.
  intros Hw.
  induction r as [c | | a IHa b IHb | a IHa | a IHa | a IHa]; intros Hr u cap k;
    cbn [rmatch no_space] in *.
  - destruct u as [| c' t]; [| reflexivity]. change ("" ++ w) with w.
    destruct w as [| c' w']; [reflexivity |].
    cbn [all_space] in Hw. apply andb_prop in Hw as [Hc' _].
    destruct (Ascii.eqb_spec c c') as [-> | _]; [| reflexivity].
    rewrite Hc' in Hr. discriminate.
  - destruct u as [| c' t]; [| reflexivity]. change ("" ++ w) with w.
    destruct w as [| c' w']; [reflexivity |].
    cbn [all_space] in Hw. apply andb_prop in Hw as [Hc' _].
    now rewrite (space_not_word c' Hc').
  - apply andb_prop in Hr as [Ha Hb]. rewrite (IHa Ha).
    apply rmatch_ext. intros u' c. apply (IHb Hb).
  - rewrite (IHa Hr). reflexivity.
  - rewrite LabelColumns.length_app.
    rewrite (star_loop_bound a (fun u' c => k (u' ++ w) c) (String.length u)
               (String.length u + String.length w) u cap) by lia.
    generalize (String.length u + String.length w) as n. intros n. revert u cap.
    induction n as [| n IH]; intros u cap; cbn [star_loop]; [reflexivity |].
    rewrite (IHa Hr).
    rewrite (rmatch_ext a u cap _
               (fun s' cap' =>
                  if (String.length s' <? String.length u)%nat
                  then star_loop (rmatch a) (fun u' c => k (u' ++ w) c) n s' cap'
                  else None)); [reflexivity |].
    intros u' c. rewrite !LabelColumns.length_app.
    replace (String.length u' + String.length w <? String.length u + String.length w)%nat
      with (String.length u' <? String.length u)%nat.
    + now rewrite IH.
    + destruct (Nat.ltb_spec (String.length u') (String.length u));
        symmetry; [apply Nat.ltb_lt | apply Nat.ltb_ge]; lia.
  - rewrite (IHa Hr). apply rmatch_ext. intros u' c. now rewrite consumed_app.
Qed.

Lemma match_here_trailing (w : string) (r : re) (u : string) :
  all_space w = true -> no_space r = true ->
  match_here r (u ++ w) = (fun '(u', cap) => (u' ++ w, cap)) <$> match_here r u.
Proof.
  intros Hw Hr. unfold match_here. rewrite (rmatch_trailing w r Hw Hr).
  now rewrite <- (rmatch_map (fun '(u', cap) => (u' ++ w, cap))).
Qed.

(** The shape of the two patterns: a literal that is not white space, then
    a pattern without white-space literals. *)
Definition headed (r : re) : Prop :=
  exists c rest, r = Cat (Lit c) rest /\ is_space c = false /\ no_space rest = true.

Lemma headed_no_space (r : re) : headed r -> no_space r = true.
Proof. intros (c & rest & -> & Hc & Hrest). cbn [no_space]. now rewrite Hc, Hrest. Qed.

Lemma match_here_empty (r : re) : headed r -> match_here r "" = None.
Proof. now intros (c & rest & -> & _). Qed.

Lemma match_here_space (r : re) (c : ascii) (t : string) :
  headed r -> is_space c = true -> match_here r (String c t) = None.
Proof.
  intros (c0 & rest & -> & Hc0 & _) Hc. unfold match_here. cbn [rmatch].
  destruct (Ascii.eqb_spec c0 c) as [-> | _]; [congruence | reflexivity].
Qed.

Lemma findall_empty (r : re) : headed r -> findall r "" = [].
Proof. intros H. unfold findall. cbn [String.length findall_from]. now rewrite match_here_empty. Qed.

Lemma findall_space (r : re) (c : ascii) (t : string) :
  headed r -> is_space c = true -> findall r (String c t) = findall r t.
Proof. intros H Hc. now rewrite findall_unfold, match_here_space. Qed.

Lemma findall_all_space (r : re) (w : string) :
  headed r -> all_space w = true -> findall r w = [].
Proof.
  intros H. induction w as [| c w IH]; intros Hw; [now apply findall_empty |].
  cbn [all_space] in Hw. apply andb_prop in Hw as [Hc Hw].
  rewrite findall_space by assumption. now apply IH.
Qed.

Lemma findall_trailing (r : re) (w : string) :
  headed r -> all_space w = true -> forall u, findall r (u ++ w) = findall r u.
Proof.
  intros H Hw u. remember (String.length u) as n eqn:Hn.
  assert (Hle : String.length u <= n) by lia. clear Hn. revert u Hle.
  induction n as [| n IH]; intros u Hle.
  - destruct u; [| cbn in Hle; lia]. cbn [String.append].
    rewrite findall_empty by exact H. now apply findall_all_space.
  - destruct u as [| c t].
    + cbn [String.append]. rewrite findall_empty by exact H. now apply findall_all_space.
    + change (String c t ++ w) with (String c (t ++ w)).
      rewrite !findall_unfold.
      change (String c (t ++ w)) with (String c t ++ w).
      rewrite (match_here_trailing w r (String c t) Hw (headed_no_space r H)).
      cbn [String.length] in Hle.
      destruct (match_here r (String c t)) as [[u' cap] |]; cbn [fmap option_fmap option_map].
      * f_equal. rewrite !LabelColumns.length_app.
        destruct (Nat.ltb_spec (String.length u') (String.length (String c t))) as [Hlt | Hge].
        -- rewrite (proj2 (Nat.ltb_lt _ _)) by lia. cbn [String.length] in Hlt. apply IH. lia.
        -- rewrite (proj2 (Nat.ltb_ge _ _)) by lia. apply IH. lia.
      * apply IH. lia.
Qed.

Lemma rstrip_split (s : string) : exists w, all_space w = true /\ s = rstrip s ++ w.
Proof.
  induction s as [| c t (w & Hw & Ht)]; [now exists "" |].
  cbn [rstrip]. destruct (rstrip t) as [| c' r'] eqn:Er.
  - cbn [String.append] in Ht. subst t. destruct (is_space c) eqn:Ec.
    + exists (String c w). cbn [all_space]. now rewrite Ec, Hw.
    + now exists w.
  - exists w. split; [exact Hw |]. now rewrite Ht at 1.
Qed.

Lemma findall_strip (r : re) (s : string) : headed r -> findall r (strip s) = findall r s.
Proof.
  intros H. unfold strip.
  destruct (rstrip_split (lstrip s)) as (w & Hw & Hs).
  rewrite <- (findall_trailing r w H Hw (rstrip (lstrip s))), <- Hs.
  clear w Hw Hs. induction s as [| c t IH]; [reflexivity |].
  cbn [lstrip]. destruct (is_space c) eqn:Ec; [| reflexivity].
  now rewrite IH, findall_space.
Qed.

Lemma patterns_headed : headed node_pattern /\ headed rel_pattern.
Proof. split; eexists _, _; (split; [reflexivity | split; reflexivity]). Qed.

Lemma extract_sets_of_rewriter (q : string) :
  contains "MATCH" (upper q) = true ->
  _extract_variables_from_pattern q = (list_to_set (nodes_of q), list_to_set (rels_of q)).
Proof.
  intros Hm. rewrite (extract_variables_with_match _ Hm).
  unfold nodes_of, rels_of. change (match_pattern q) with (strip (scanned_clause q)).
  destruct patterns_headed as [Hn Hr]. rewrite !findall_strip by assumption.
  f_equal; apply set_eq; intros x; rewrite !elem_of_list_to_set;
    now rewrite TextFacts.fromkeys_elem_of.
Qed.

(** X16.  For every query with the match keyword, the variable sets the
    extractor returns are the variables the rewriter lists in its return
    clause: the white space the rewriter strips from the match clause hides
    no variable, so every column the rewritten query returns for a node or
    a relationship is looked up by the reconstructor, and no other. *)
Theorem rewriter_extractor_agree (q : string) :
  has_match_keyword q ->
  (_extract_variables_from_pattern q).1 = list_to_set (nodes_of q) /\
  (_extract_variables_from_pattern q).2 = list_to_set (rels_of q).
Proof.
  intros Hm. apply has_match_keyword_true in Hm.
  rewrite (extract_sets_of_rewriter q Hm). now split.
Qed.

Lemma rewriter_extractor_agree_example :
  (_extract_variables_from_pattern example_query).1 = list_to_set (nodes_of example_query) /\
  (_extract_variables_from_pattern example_query).2 = list_to_set (rels_of example_query).
Proof.
  apply (rewriter_extractor_agree example_query).
  exists "", " (P:PERSON)-[R:ACTED_IN]->(M:MOVIE) RETURN P.NAME". reflexivity.
Defined.

End ClauseAgreement.

(** ** The rewriter only recombines text of the query *)
Module Recomposition.
Import Text Regex Clause Rewriter QueryFacts.

(** [x] is a contiguous piece of [s]. *)
Definition piece (x s : string) : Prop := exists a b, s = a ++ x ++ b.

Lemma append_assoc (a b c : string) : (a ++ b) ++ c = a ++ b ++ c.
Proof.
  induction a as [| ch a IH]; [reflexivity |].
  change (String ch ((a ++ b) ++ c) = String ch (a ++ b ++ c)). now rewrite IH.
Qed.

Lemma append_empty_r (a : string) : a ++ "" = a.
Proof.
  induction a as [| ch a IH]; [reflexivity |].
  change (String ch (a ++ "") = String ch a). now rewrite IH.
Qed.

Lemma piece_trans (x y z : string) : piece x y -> piece y z -> piece x z.
Proof.
  intros (a & b & ->) (a' & b' & ->). exists (a' ++ a), (b ++ b').
  now rewrite !append_assoc.
Qed.

Lemma substring_start (m : nat) (s : string) : exists b, s = substring 0 m s ++ b.
Proof.
  revert s. induction m as [| m IH]; intros s.
  - exists s. now destruct s.
  - destruct s as [| c t]; [now exists "" |].
    destruct (IH t) as (b & Hb). exists b.
    change (String c t = String c (substring 0 m t ++ b)). now rewrite <- Hb.
Qed.

Lemma substring_piece (n m : nat) (s : string) : piece (substring n m s) s.
Proof.
  revert s. induction n as [| n IH]; intros s.
  - destruct (substring_start m s) as (b & Hb). now exists "", b.
  - destruct s as [| c t].
    + exists "", "". now destruct m.
    + destruct (IH t) as (a & b & Ht). exists (String c a), b.
      change (String c t = String c (a ++ substring n m t ++ b)). now rewrite <- Ht.
Qed.

Lemma slice_piece (s : string) (a b : Z) : piece (slice s a b) s.
Proof. unfold slice. apply substring_piece. Qed.

Lemma lstrip_piece (s : string) : piece (lstrip s) s.
Proof.
  induction s as [| c t (a & b & Ht)]; [now exists "", "" |].
  cbn [lstrip]. destruct (is_space c).
  - exists (String c a), b.
    change (String c t = String c (a ++ lstrip t ++ b)). now rewrite <- Ht.
  - exists "", "". cbn [String.append]. now rewrite append_empty_r.
Qed.

Lemma rstrip_piece (s : string) : piece (rstrip s) s.
Proof. destruct (ClauseAgreement.rstrip_split s) as (w & _ & Hs). now exists "", w. Qed.

Lemma strip_piece (s : string) : piece (strip s) s.
Proof.
  unfold strip. apply (piece_trans _ (lstrip s)); [apply rstrip_piece | apply lstrip_piece].
Qed.

Lemma match_pattern_piece (q : string) : piece (match_pattern q) q.
Proof.
  unfold match_pattern. eapply piece_trans; [apply strip_piece | apply slice_piece].
Qed.

Lemma where_clause_piece (q : string) :
  where_clause q = "" \/ exists x, where_clause q = " " ++ x /\ piece x q.
Proof.
  unfold where_clause.
  destruct (negb (find (upper q) "WHERE" (find (upper q) "MATCH" 0) =? -1)%Z &&
            ((find (upper q) "RETURN" (find (upper q) "MATCH" 0) =? -1)%Z ||
             (find (upper q) "WHERE" (find (upper q) "MATCH" 0)
                <? find (upper q) "RETURN" (find (upper q) "MATCH" 0))%Z));
    [| now left].
  right. eexists. split; [reflexivity |].
  eapply piece_trans; [apply strip_piece | apply slice_piece].
Qed.

(** X17.  The rewriter only recombines text of the query: it returns the
    query as it is, or a match clause that is a contiguous piece of the
    query, then nothing or a blank and a where clause that is a contiguous
    piece of the query, then a return clause over at least one item, then
    the cap of 50.  Nothing before the return clause is made up. *)
Theorem create_graph_query_recombines (q : string) :
  _create_graph_query q = q \/
  exists m wh items,
    _create_graph_query q = m ++ wh ++ " RETURN " ++ join ", " items ++ " LIMIT 50" /\
    piece m q /\
    (wh = "" \/ exists x, wh = " " ++ x /\ piece x q) /\
    items <> [].
Proof.
  unfold _create_graph_query.
  destruct (negb (contains "MATCH" (upper q))); [now left |].
  destruct (nodes_of q ++ rels_of q)%list as [| v vs] eqn:E; [now left |].
  right. exists (match_pattern q), (where_clause q), (return_parts (nodes_of q) (v :: vs)).
  split; [reflexivity |]. split; [apply match_pattern_piece |].
  split; [apply where_clause_piece |].
  unfold return_parts. cbn [flat_map]. now destruct (bool_decide (v ∈ nodes_of q)).
Qed.

End Recomposition.

(** ** The rewritten query starts at the match keyword *)
Module MatchClauseStart.
Import Text Regex Clause Rewriter QueryFacts.

Lemma upper_app (a b : string) : upper (a ++ b) = upper a ++ upper b.
Proof.
  unfold upper. induction a as [| c a IH]; [reflexivity |].
  change (String (upper_char c) (map_chars upper_char (a ++ b))
          = String (upper_char c) (map_chars upper_char a ++ map_chars upper_char b)).
  now rewrite IH.
Qed.

Lemma upper_drop (n : nat) (s : string) : upper (drop n s) = drop n (upper s).
Proof.
  revert s. induction n as [| n IH]; intros s; [reflexivity |].
  destruct s as [| c t]; [reflexivity |]. apply IH.
Qed.

Lemma upper_length (s : string) : String.length (upper s) = String.length s.
Proof.
  unfold upper. induction s as [| c t IH]; [reflexivity |]. cbn. now rewrite IH.
Qed.

Lemma length_drop (n : nat) (s : string) :
  String.length (drop n s) = String.length s - n.
Proof.
  revert s. induction n as [| n IH]; intros s; [cbn; lia |].
  destruct s as [| c t]; [reflexivity |]. cbn [drop String.length]. rewrite IH. lia.
Qed.

Lemma drop_drop (n d : nat) (s : string) : drop d (drop n s) = drop (n + d) s.
Proof.
  revert s. induction n as [| n IH]; intros s; [reflexivity |].
  destruct s as [| c t]; [now destruct d |]. apply IH.
Qed.

Lemma substring_from (n m : nat) (s : string) : substring n m s = substring 0 m (drop n s).
Proof.
  revert s. induction n as [| n IH]; intros s; [reflexivity |].
  destruct s as [| c t]; [now destruct m |]. apply IH.
Qed.

Lemma space_upper (c : ascii) : is_space (upper_char c) = is_space c.
Proof. destruct c as [[] [] [] [] [] [] [] []]; reflexivity. Qed.

Lemma rstrip_cons (c : ascii) (t : string) :
  is_space c = false -> rstrip (String c t) = String c (rstrip t).
Proof. intros Hc. cbn [rstrip]. rewrite Hc. now destruct (rstrip t). Qed.

(** Where [find_at] finds [sub], [sub] is. *)
Lemma find_at_prefix (sub s : string) (j : Z) :
  find_at sub s j <> (-1)%Z ->
  exists d,
    find_at sub s j = (j + Z.of_nat d)%Z /\ d <= String.length s /\
    String.prefix sub (drop d s) = true.
Proof.
  revert j. induction s as [| c t IH]; intros j H; cbn [find_at] in *.
  - destruct (String.prefix sub "") eqn:E; [| contradiction].
    exists 0. repeat split; [lia | reflexivity | exact E].
  - destruct (String.prefix sub (String c t)) eqn:E.
    + exists 0. repeat split; [lia | cbn; lia | exact E].
    + destruct (IH _ H) as (d & Hd & Hle & Hp). exists (S d).
      repeat split; [lia | cbn; lia | exact Hp].
Qed.

(** Where [find] finds [sub] from a start inside the text, [sub] is, at or
    after the start. *)
Lemma find_prefix (s sub : string) (start : nat) (r : Z) :
  find s sub (Z.of_nat start) = r -> r <> (-1)%Z ->
  exists n,
    r = Z.of_nat n /\ start <= n <= String.length s /\
    String.prefix sub (drop n s) = true.
Proof.
  unfold find. assert (E : (Z.of_nat start <? 0)%Z = false) by (apply Z.ltb_ge; lia).
  rewrite E. destruct (len s <? Z.of_nat start)%Z eqn:El; [congruence |].
  apply Z.ltb_ge in El. unfold len in El. rewrite Nat2Z.id.
  intros <- H. destruct (find_at_prefix _ _ _ H) as (d & Hd & Hle & Hp).
  rewrite length_drop in Hle. rewrite drop_drop in Hp.
  exists (start + d). repeat split; [lia | lia | lia | exact Hp].
Qed.

(** No terminating keyword starts inside the match keyword. *)
Lemma keyword_outside_match (kw b : string) (d : nat) :
  kw ∈ end_keywords -> d < 5 -> String.prefix kw (drop d ("MATCH" ++ b)) = false.
Proof.
  intros Hkw Hd. unfold end_keywords in Hkw.
  repeat (apply elem_of_cons in Hkw as [-> | Hkw]); [.. | inversion Hkw];
    (destruct d as [| [| [| [| [| d]]]]]; [reflexivity .. | lia]).
Qed.

Lemma fold_left_preserves_in {S X : Type} (P : S -> Prop) (f : S -> X -> S) (l : list X) :
  (forall s x, x ∈ l -> P s -> P (f s x)) -> forall s, P s -> P (fold_left f l s).
Proof.
  induction l as [| x l IH]; intros Hf s Hs; [exact Hs |].
  cbn [fold_left]. apply IH.
  - intros s' y Hy. apply Hf. now apply list_elem_of_further.
  - apply Hf; [apply list_elem_of_here | exact Hs].
Qed.

(** The match clause ends after the match keyword, inside the text. *)
Lemma pattern_end_range (q : string) (i : nat) :
  String.prefix "MATCH" (drop i (upper q)) = true ->
  exists e,
    pattern_end q (upper q) (Z.of_nat i) = Z.of_nat e /\ i + 5 <= e <= String.length q.
Proof.
  intros Hp. apply TextFacts.prefix_split in Hp as (b & Hb).
  assert (Hlen : i + 5 <= String.length q).
  { apply (f_equal String.length) in Hb.
    rewrite length_drop, upper_length, LabelColumns.length_app in Hb.
    cbn [String.length] in Hb. lia. }
  unfold pattern_end.
  apply (fold_left_preserves_in
           (fun pe => exists e, pe = Z.of_nat e /\ i + 5 <= e <= String.length q)).
  - intros pe kw Hkw (e & -> & He).
    destruct (find (upper q) kw (Z.of_nat i) =? -1)%Z eqn:E1; cbn [negb andb];
      [now exists e |].
    destruct (find (upper q) kw (Z.of_nat i) <? Z.of_nat e)%Z eqn:E2; [| now exists e].
    apply Z.eqb_neq in E1. apply Z.ltb_lt in E2.
    destruct (find_prefix _ _ _ _ eq_refl E1) as (n & Hn & Hrange & Hpk).
    exists n. split; [exact Hn |]. rewrite Hn in E2. split; [| lia].
    destruct (Nat.le_gt_cases (i + 5) n) as [Hok | Hin]; [exact Hok |].
    exfalso. replace n with (i + (n - i)) in Hpk by lia.
    rewrite <- drop_drop, Hb in Hpk.
    rewrite (keyword_outside_match kw b (n - i) Hkw) in Hpk by lia. discriminate.
  - exists (String.length q). unfold len. split; [reflexivity | lia].
Qed.

(** X18.  For an ASCII query with the match keyword, the match clause the
    rewriter emits begins with the keyword itself (in the letter case of
    the query): whatever precedes the first occurrence of the keyword is
    dropped, so a rewritten query always starts with [MATCH].  (The
    positions are found in the upper-cased text and used in the query
    itself; the two agree on ASCII texts, where upper-casing keeps every
    character in its place.) *)
Theorem rewritten_query_starts_with_match (q : string) :
  isascii q = true ->
  has_match_keyword q ->
  (exists rest, upper (match_pattern q) = "MATCH" ++ rest) /\
  (_create_graph_query q = q \/
   exists rest, upper (_create_graph_query q) = "MATCH" ++ rest).
Proof.
  intros _ Hm. apply has_match_keyword_true in Hm.
  assert (Hstart : exists rest, upper (match_pattern q) = "MATCH" ++ rest).
  { pose proof (contains_true_find _ _ Hm) as Hf. apply Z.eqb_neq in Hf.
    destruct (find_prefix (upper q) "MATCH" 0 _ eq_refl Hf) as (i & Hi & Hrange & Hp).
    change (Z.of_nat 0) with 0%Z in Hi.
    destruct (pattern_end_range q i Hp) as (e & He & Hrange').
    unfold match_pattern. rewrite Hi, He. unfold slice, clip, len.
    assert (E1 : (Z.of_nat i <? 0)%Z = false) by (apply Z.ltb_ge; lia).
    assert (E2 : (Z.of_nat e <? 0)%Z = false) by (apply Z.ltb_ge; lia).
    rewrite E1, E2, !Z.min_l by lia. rewrite Nat2Z.id.
    replace (Z.to_nat (Z.of_nat e - Z.of_nat i)) with (5 + (e - i - 5)) by lia.
    rewrite substring_from.
    apply TextFacts.prefix_split in Hp as (b & Hb). rewrite <- upper_drop in Hb.
    destruct (drop i q) as [| c1 [| c2 [| c3 [| c4 [| c5 t]]]]]; try discriminate Hb.
    cbn in Hb. inversion Hb as [[H1 H2 H3 H4 H5 Ht]].
    cbn [Nat.add substring].
    assert (S1 : is_space c1 = false) by (rewrite <- space_upper, H1; reflexivity).
    assert (S2 : is_space c2 = false) by (rewrite <- space_upper, H2; reflexivity).
    assert (S3 : is_space c3 = false) by (rewrite <- space_upper, H3; reflexivity).
    assert (S4 : is_space c4 = false) by (rewrite <- space_upper, H4; reflexivity).
    assert (S5 : is_space c5 = false) by (rewrite <- space_upper, H5; reflexivity).
    unfold strip. cbn [lstrip]. rewrite S1.
    rewrite !rstrip_cons by assumption.
    exists (upper (rstrip (substring 0 (e - i - 5) t))).
    unfold upper. cbn [map_chars]. rewrite H1, H2, H3, H4, H5. reflexivity. }
  split; [exact Hstart |].
  unfold _create_graph_query. rewrite Hm. cbn [negb].
  destruct (nodes_of q ++ rels_of q)%list as [| v vs]; [now left |].
  right. destruct Hstart as (rest & Hrest). rewrite upper_app, Hrest.
  eexists. apply Recomposition.append_assoc.
Qed.

Lemma rewritten_query_starts_with_match_example :
  (exists rest, upper (match_pattern "Cypher: optional match (a:Actor) return a.name")
                = "MATCH" ++ rest) /\
  (_create_graph_query "Cypher: optional match (a:Actor) return a.name"
     = "Cypher: optional match (a:Actor) return a.name" \/
   exists rest, upper (_create_graph_query "Cypher: optional match (a:Actor) return a.name")
                = "MATCH" ++ rest).
Proof.
  apply (rewritten_query_starts_with_match "Cypher: optional match (a:Actor) return a.name").
  - reflexivity.
  - exists "CYPHER: OPTIONAL ", " (A:ACTOR) RETURN A.NAME". reflexivity.
Defined.

End MatchClauseStart.

(** ** The serializer's fixed points, and the extraction end to end *)
Module EndToEnd.
Import Text Value Serializer Reconstructor ReconstructorFacts Rewriter.

(** X19.  Serializing is idempotent, and the values the serializer returns
    unchanged are exactly the JSON-safe ones: null, booleans, numbers,
    texts, and lists and mappings of such. *)
Theorem serialize_fixed_points (v : value) :
  _serialize_property (_serialize_property v) = _serialize_property v /\
  (_serialize_property v = v <-> json_safe v = true).
Proof.
  split.
  - apply SerializerFacts.serialize_json_safe_id, SerializerFacts.serialize_json_safe.
  - split.
    + intros H. rewrite <- H. apply SerializerFacts.serialize_json_safe.
    + apply SerializerFacts.serialize_json_safe_id.
Qed.

Lemma appended_key (nv rv : gset string) (e : string * value) (r : GraphRelationship) :
  r ∈ appended nv rv e -> e.1 ∈ rv /\ e.1 ∉ nv.
Proof.
  unfold appended. destruct e as [key v]. destruct v; try (intros H; now inversion H).
  destruct (negb (endswith key "_labels") && negb (bool_decide (key ∈ nv)) &&
            bool_decide (key ∈ rv) && truthy (get items "start") &&
            truthy (get items "end")) eqn:E; [| intros H; now inversion H].
  intros _. apply andb_prop in E as [E _]. apply andb_prop in E as [E _].
  apply andb_prop in E as [E Hrv]. apply andb_prop in E as [_ Hnv].
  apply bool_decide_eq_true in Hrv. apply negb_true_iff, bool_decide_eq_false in Hnv.
  now split.
Qed.

(** X20.  Graph data only shows what the rewritten query was asked for:
    every node of the payload [_extract_graph_data] returns for a query
    has an id made of a node variable the rewriter lists in its return
    clause, an underscore and a text, and the payload has relationships
    only if the query has a relationship variable that is not also a node
    variable. *)
Theorem graph_data_from_query_variables h g context q (p : GraphPayload) :
  _extract_graph_data h g context q = Some p ->
  (forall n, n ∈ nodes p ->
     exists key text, n_id n = key ++ "_" ++ text /\ key ∈ nodes_of q) /\
  (relationships p <> [] -> exists key, key ∈ rels_of q /\ key ∉ nodes_of q).
Proof.
  unfold _extract_graph_data.
  destruct (contains "MATCH" (upper q)) eqn:Hm; [| discriminate]. cbn [negb].
  destruct (g (_create_graph_query q)) as [rows |]; [| discriminate].
  rewrite (ClauseAgreement.extract_sets_of_rewriter q Hm). intros Hp.
  assert (Hn : nodes p = payload_nodes (reconstruct h rows (list_to_set (nodes_of q))
                                          (list_to_set (rels_of q))))
    by now rewrite Hp.
  assert (Hr : relationships p
               = payload_relationships (reconstruct h rows (list_to_set (nodes_of q))
                                          (list_to_set (rels_of q))))
    by now rewrite Hp.
  split.
  - intros n Hin. rewrite Hn in Hin.
    apply ReconstructorMore.reconstruct_nodes_made in Hin
      as (record & i & _ & key & d & t & (_ & Hk & _) & _ & He).
    inversion He; subst. exists key, (py_str t). split; [reflexivity |].
    now apply elem_of_list_to_set in Hk.
  - rewrite Hr, reconstruct_relationships. intros Hne.
    destruct (flat_map (flat_map (appended (list_to_set (nodes_of q)) (list_to_set (rels_of q))))
                rows) as [| r rest] eqn:E; [contradiction |].
    assert (Hin : r ∈ flat_map (flat_map (appended (list_to_set (nodes_of q))
                                            (list_to_set (rels_of q)))) rows)
      by (rewrite E; apply list_elem_of_here).
    apply list_elem_of_In, in_flat_map in Hin as (record & _ & Hin).
    apply in_flat_map in Hin as (e & _ & Hin). apply list_elem_of_In in Hin.
    apply appended_key in Hin as [H1 H2]. exists e.1.
    rewrite elem_of_list_to_set in H1. rewrite elem_of_list_to_set in H2. now split.
Qed.

Lemma graph_data_from_query_variables_example :
  (forall n,
     n ∈ nodes {| nodes := [{| n_id := "m_Big"; n_label := "Big"; n_labels := [VStr "Movie"];
                               n_properties := [("title", VStr "Big")] |}];
                  relationships := [] |} ->
     exists key text,
       n_id n = key ++ "_" ++ text /\ key ∈ nodes_of "MATCH (m:Movie) RETURN m.title") /\
  (relationships {| nodes := [{| n_id := "m_Big"; n_label := "Big"; n_labels := [VStr "Movie"];
                                 n_properties := [("title", VStr "Big")] |}];
                    relationships := [] |} <> [] ->
   exists key,
     key ∈ rels_of "MATCH (m:Movie) RETURN m.title" /\
     key ∉ nodes_of "MATCH (m:Movie) RETURN m.title").
Proof.
  apply (graph_data_from_query_variables (fun _ => None)
           (fun _ => Some [[("m", VDict [("title", VStr "Big")]);
                            ("m_labels", VList [VStr "Movie"])]])
           [] "MATCH (m:Movie) RETURN m.title").
  vm_compute. reflexivity.
Defined.

End EndToEnd.

(** ** The rewriter against the wording of the specification *)
Module RewriterRefinement.
Import Text Regex Clause Rewriter QueryFacts MatchClauseStart.

(** *** The rewritten query in the words of the specification

    These definitions follow the specification, not the code: positions are
    searched one by one instead of with [str.find], the end of the match
    clause is the first position at which any terminating keyword occurs,
    and names are put in first-seen order by a recursion of their own. *)

(** [kw] occurs in [s] at position [i]. *)
Definition occurs_at (kw s : string) (i : nat) : bool := String.prefix kw (drop i s).

(** The first position of [s], at or after [from], at which [p] holds. *)
Definition first_position (p : nat -> bool) (s : string) (from : nat) : option nat :=
  List.find p (seq from (S (String.length s) - from)).

(** The first position, at or after [from], at which [kw] occurs in [s]. *)
Definition first_occurrence (kw s : string) (from : nat) : option nat :=
  first_position (occurs_at kw s) s from.

(** The keywords that end a match clause. *)
Definition terminators : list string := ["WHERE"; "RETURN"; "ORDER BY"; "LIMIT"; "WITH"].

(** The end of the match clause that starts at [m]: the position of the first
    occurrence, after the match keyword, of any terminating keyword; the
    end of the text when there is none. *)
Definition clause_end (s : string) (m : nat) : nat :=
  default (String.length s)
    (first_position (fun i => existsb (fun kw => occurs_at kw s i) terminators) s m).

(** The text of [s] from position [a] up to position [b]. *)
Definition segment (s : string) (a b : nat) : string := substring a (b - a) s.

(** The names of a list in the order in which they are first seen. *)
Fixpoint first_seen (l : list string) : list string :=
  match l with
  | [] => []
  | x :: rest => x :: filter (fun y => y <> x) (first_seen rest)
  end.

(** The start of the match clause: the first occurrence of the match
    keyword, in any letter case. *)
Definition spec_start (q : string) : option nat := first_occurrence "MATCH" (upper q) 0.

(** The match clause, without the white space around it. *)
Definition spec_match_clause (q : string) : string :=
  match spec_start q with
  | Some m => strip (segment q m (clause_end (upper q) m))
  | None => ""
  end.

(** The where clause, if there is one: the span from the where keyword up
    to the return keyword, or to the end of the text, without the white
    space around it.  A where keyword that only comes after the return
    keyword is no where clause of the match. *)
Definition spec_where_clause (q : string) : option string :=
  match spec_start q with
  | Some m =>
      match first_occurrence "WHERE" (upper q) m, first_occurrence "RETURN" (upper q) m with
      | Some w, Some r => if (w <? r)%nat then Some (strip (segment q w r)) else None
      | Some w, None => Some (strip (segment q w (String.length q)))
      | None, _ => None
      end
  | None => None
  end.

(** The node and the relationship variables of the match clause, in
    first-seen order. *)
Definition spec_nodes (q : string) : list string :=
  first_seen (findall node_pattern (spec_match_clause q)).

Definition spec_rels (q : string) : list string :=
  first_seen (findall rel_pattern (spec_match_clause q)).

(** The rewritten query: the input when it has no match keyword or no
    variable; otherwise the match clause, the where clause when there is
    one, every node variable followed by its labels column, every
    relationship variable alone, and the cap of 50 rows. *)
Definition spec_rewrite (q : string) : string :=
  match spec_start q with
  | None => q
  | Some _ =>
      match (spec_nodes q ++ spec_rels q)%list with
      | [] => q
      | _ =>
          spec_match_clause q ++
          from_option (String.append " ") "" (spec_where_clause q) ++
          " RETURN " ++
          join ", " (flat_map node_items (spec_nodes q) ++ spec_rels q)%list ++
          " LIMIT 50"
      end
  end.

(** *** The code computes what the specification words *)

Lemma find_ext_in {X : Type} (f g : X -> bool) (l : list X) :
  (forall x, In x l -> f x = g x) -> List.find f l = List.find g l.
Proof.
  induction l as [| x l IH]; intros H; [reflexivity |].
  cbn [List.find]. rewrite (H x) by now left.
  rewrite IH; [reflexivity |]. intros y Hy. apply H. now right.
Qed.

(** [List.find] on a range returns its least element that satisfies the
    test. *)
Lemma find_seq_some (p : nat -> bool) (from n i : nat) :
  List.find p (seq from n) = Some i <->
  from <= i < from + n /\ p i = true /\ forall j, from <= j < i -> p j = false.
Proof.
  revert from. induction n as [| n IH]; intros from; cbn [seq List.find].
  - split; [discriminate | lia].
  - destruct (p from) eqn:E.
    + split.
      * intros H. inversion H; subst i. repeat split; [lia | lia | exact E | lia].
      * intros (Hr & Hp & Hleast). f_equal.
        destruct (Nat.eq_dec from i) as [-> | Hne]; [reflexivity |].
        rewrite (Hleast from) in E by lia. discriminate.
    + rewrite IH. split.
      * intros (Hr & Hp & Hleast). repeat split; [lia | lia | exact Hp |].
        intros j Hj. destruct (Nat.eq_dec j from) as [-> | Hne]; [exact E | apply Hleast; lia].
      * intros (Hr & Hp & Hleast). repeat split; [| lia | exact Hp | intros j Hj; apply Hleast; lia].
        destruct (Nat.eq_dec from i) as [-> | Hne]; [congruence | lia].
Qed.

Lemma find_seq_none (p : nat -> bool) (from n : nat) :
  List.find p (seq from n) = None <-> forall j, from <= j < from + n -> p j = false.
Proof.
  split.
  - intros H j Hj. apply (find_none _ _ H). apply in_seq. lia.
  - intros H. destruct (List.find p (seq from n)) as [i |] eqn:E; [| reflexivity].
    apply find_seq_some in E as (Hr & Hp & _). rewrite H in Hp by lia. discriminate.
Qed.

Lemma first_position_some (p : nat -> bool) (s : string) (from i : nat) :
  first_position p s from = Some i <->
  from <= i <= String.length s /\ p i = true /\ forall j, from <= j < i -> p j = false.
Proof.
  unfold first_position. rewrite find_seq_some. split; intros (Hr & Hp & Hl); repeat split;
    try assumption; lia.
Qed.

Lemma first_position_none (p : nat -> bool) (s : string) (from : nat) :
  first_position p s from = None <-> forall j, from <= j <= String.length s -> p j = false.
Proof.
  unfold first_position. rewrite find_seq_none. split; intros H j Hj; apply H; lia.
Qed.

(** The scan of [str.find] is the search for the first occurrence. *)
Lemma find_at_first (kw t : string) :
  forall n,
    find_at kw t (Z.of_nat n) =
      from_option Z.of_nat (-1)%Z
        (List.find (fun j => String.prefix kw (drop (j - n) t)) (seq n (S (String.length t)))).
Proof.
  induction t as [| c t IH]; intros n.
  - cbn [find_at String.length seq List.find]. rewrite Nat.sub_diag. cbn [drop].
    now destruct (String.prefix kw "").
  - cbn [find_at]. change (String.length (String c t)) with (S (String.length t)).
    change (seq n (S (S (String.length t)))) with (n :: seq (S n) (S (String.length t))).
    cbn [List.find]. rewrite Nat.sub_diag. cbn [drop].
    destruct (String.prefix kw (String c t)); [reflexivity |].
    replace (Z.of_nat n + 1)%Z with (Z.of_nat (S n)) by lia. rewrite IH. f_equal.
    apply find_ext_in. intros j Hj. apply in_seq in Hj.
    replace (j - n) with (S (j - S n)) by lia. reflexivity.
Qed.

Lemma find_first (s kw : string) (from : nat) :
  from <= String.length s ->
  find s kw (Z.of_nat from) = from_option Z.of_nat (-1)%Z (first_occurrence kw s from).
Proof.
  intros Hle. unfold find.
  assert (E : (Z.of_nat from <? 0)%Z = false) by (apply Z.ltb_ge; lia). rewrite E.
  assert (E' : (len s <? Z.of_nat from)%Z = false) by (apply Z.ltb_ge; unfold len; lia).
  rewrite E', Nat2Z.id, find_at_first. f_equal.
  unfold first_occurrence, first_position. rewrite length_drop.
  replace (S (String.length s - from)) with (S (String.length s) - from) by lia.
  apply find_ext_in. intros j Hj. apply in_seq in Hj. unfold occurs_at.
  rewrite drop_drop. f_equal. f_equal. lia.
Qed.

Lemma slice_segment (s : string) (a b : nat) :
  a <= String.length s -> b <= String.length s ->
  slice s (Z.of_nat a) (Z.of_nat b) = segment s a b.
Proof.
  intros Ha Hb. unfold slice, segment, clip, len.
  assert (E1 : (Z.of_nat a <? 0)%Z = false) by (apply Z.ltb_ge; lia).
  assert (E2 : (Z.of_nat b <? 0)%Z = false) by (apply Z.ltb_ge; lia).
  rewrite E1, E2, !Z.min_l by lia. rewrite Nat2Z.id. f_equal. lia.
Qed.

(** The loop over the terminating keywords, on positions. *)
Definition end_step (u : string) (m : nat) (e : nat) (kw : string) : nat :=
  match first_occurrence kw u m with
  | Some i => if (i <? e)%nat then i else e
  | None => e
  end.

Lemma pattern_end_steps (u : string) (m : nat) (kws : list string) :
  m <= String.length u ->
  forall e,
    fold_left
      (fun pattern_end keyword =>
         let idx := find u keyword (Z.of_nat m) in
         if negb (idx =? -1)%Z && (idx <? pattern_end)%Z then idx else pattern_end)
      kws (Z.of_nat e)
    = Z.of_nat (fold_left (end_step u m) kws e).
Proof.
  intros Hm. induction kws as [| kw kws IH]; intros e; [reflexivity |].
  cbn [fold_left]. rewrite <- IH. f_equal. cbv zeta. rewrite (find_first u kw m Hm).
  unfold end_step. destruct (first_occurrence kw u m) as [i |]; cbn [from_option].
  - assert (E : (Z.of_nat i =? -1)%Z = false) by (apply Z.eqb_neq; lia). rewrite E. cbn [negb andb].
    destruct (Nat.ltb_spec i e).
    + now rewrite (proj2 (Z.ltb_lt _ _)) by lia.
    + now rewrite (proj2 (Z.ltb_ge _ _)) by lia.
  - reflexivity.
Qed.

(** What the loop has established after the keywords [done]: the position
    is inside the text, none of these keywords occurs between [m] and the
    position, and one of them occurs at the position unless it is the end
    of the text. *)
Definition end_found (u : string) (m : nat) (done : list string) (e : nat) : Prop :=
  e <= String.length u /\
  (forall kw j, kw ∈ done -> m <= j < e -> occurs_at kw u j = false) /\
  (e = String.length u \/ exists kw, kw ∈ done /\ m <= e /\ occurs_at kw u e = true).

Lemma end_step_found (u : string) (m : nat) (done : list string) (e : nat) (kw : string) :
  end_found u m done e -> end_found u m (done ++ [kw]) (end_step u m e kw).
Proof.
  intros (Hle & Hnone & Hat). unfold end_step.
  destruct (first_occurrence kw u m) as [i |] eqn:E.
  - apply first_position_some in E as (Hr & Hp & Hleast).
    destruct (Nat.ltb_spec i e) as [Hlt | Hge].
    + split; [lia |]. split.
      * intros kw' j Hkw Hj. apply elem_of_app in Hkw as [Hkw | Hkw].
        -- apply Hnone; [exact Hkw | lia].
        -- apply list_elem_of_singleton in Hkw. subst kw'. now apply Hleast.
      * right. exists kw. split; [apply elem_of_app; right; apply list_elem_of_here |].
        split; [lia | exact Hp].
    + split; [exact Hle |]. split.
      * intros kw' j Hkw Hj. apply elem_of_app in Hkw as [Hkw | Hkw].
        -- now apply Hnone.
        -- apply list_elem_of_singleton in Hkw. subst kw'. apply Hleast. lia.
      * destruct Hat as [-> | (kw' & Hkw & Hm & Hp')]; [now left |].
        right. exists kw'. split; [apply elem_of_app; now left | now split].
  - assert (Hno : forall j, m <= j <= String.length u -> occurs_at kw u j = false)
      by now apply first_position_none.
    split; [exact Hle |]. split.
    + intros kw' j Hkw Hj. apply elem_of_app in Hkw as [Hkw | Hkw].
      * now apply Hnone.
      * apply list_elem_of_singleton in Hkw. subst kw'. apply Hno. lia.
    + destruct Hat as [-> | (kw' & Hkw & Hm & Hp')]; [now left |].
      right. exists kw'. split; [apply elem_of_app; now left | now split].
Qed.

Lemma end_steps_found (u : string) (m : nat) (kws : list string) :
  forall done e,
    end_found u m done e -> end_found u m (done ++ kws) (fold_left (end_step u m) kws e).
Proof.
  induction kws as [| kw kws IH]; intros done e H.
  - now rewrite app_nil_r.
  - cbn [fold_left]. replace (done ++ kw :: kws)%list with ((done ++ [kw]) ++ kws)%list
      by now rewrite <- app_assoc.
    apply IH. now apply end_step_found.
Qed.

(** A position found by the loop is the end of the match clause. *)
Lemma end_found_clause_end (u : string) (m e : nat) :
  end_found u m terminators e -> e = clause_end u m.
Proof.
  intros (Hle & Hnone & Hat). unfold clause_end.
  destruct (first_position _ u m) as [i |] eqn:E; cbn [default from_option id].
  - apply first_position_some in E as (Hr & Hp & Hleast).
    apply existsb_exists in Hp as (kw & Hkw & Hp). apply list_elem_of_In in Hkw.
    destruct (Nat.lt_trichotomy e i) as [Hlt | [Heq | Hgt]]; [| exact Heq |].
    + exfalso. destruct Hat as [-> | (kw' & Hkw' & Hm & Hp')]; [lia |].
      assert (Hf := Hleast e ltac:(lia)).
      assert (Ht : existsb (fun kw => occurs_at kw u e) terminators = true).
      { apply existsb_exists. exists kw'. split; [now apply list_elem_of_In | exact Hp']. }
      congruence.
    + exfalso. rewrite (Hnone kw i Hkw) in Hp by lia. discriminate.
  - assert (Hno : forall j, m <= j <= String.length u ->
                    existsb (fun kw => occurs_at kw u j) terminators = false)
      by now apply first_position_none.
    destruct Hat as [-> | (kw' & Hkw' & Hm & Hp')]; [reflexivity |].
    exfalso.
    assert (Ht : existsb (fun kw => occurs_at kw u e) terminators = true).
    { apply existsb_exists. exists kw'. split; [now apply list_elem_of_In | exact Hp']. }
    rewrite Hno in Ht by lia. discriminate.
Qed.

Lemma pattern_end_clause_end (q : string) (m : nat) :
  m <= String.length q ->
  pattern_end q (upper q) (Z.of_nat m) = Z.of_nat (clause_end (upper q) m).
Proof.
  intros Hm. unfold pattern_end, len.
  assert (Hu : m <= String.length (upper q)) by (rewrite upper_length; exact Hm).
  rewrite (pattern_end_steps (upper q) m end_keywords Hu). f_equal.
  apply end_found_clause_end.
  change terminators with ([] ++ end_keywords)%list.
  apply end_steps_found. unfold end_found. rewrite upper_length.
  split; [lia |]. split; [| now left].
  intros kw j Hkw. inversion Hkw.
Qed.

Lemma clause_end_le (u : string) (m : nat) : clause_end u m <= String.length u.
Proof.
  unfold clause_end. destruct (first_position _ u m) as [i |] eqn:E;
    cbn [default from_option id]; [| lia].
  apply first_position_some in E. lia.
Qed.

(** The start the code finds is the first occurrence of the keyword. *)
Lemma match_start (q : string) :
  contains "MATCH" (upper q) = true ->
  exists m,
    spec_start q = Some m /\ m <= String.length q /\
    find (upper q) "MATCH" 0 = Z.of_nat m.
Proof.
  intros Hm. apply contains_true_find, Z.eqb_neq in Hm.
  change 0%Z with (Z.of_nat 0) in Hm |- *.
  rewrite find_first in Hm |- * by lia. fold (spec_start q) in Hm |- *.
  destruct (spec_start q) as [m |] eqn:E; [| contradiction].
  exists m. split; [reflexivity |]. split; [| reflexivity].
  apply first_position_some in E. rewrite upper_length in E. lia.
Qed.

Lemma match_pattern_spec (q : string) :
  contains "MATCH" (upper q) = true -> match_pattern q = spec_match_clause q.
Proof.
  intros Hm. destruct (match_start q Hm) as (m & Hs & Hle & Hf).
  unfold match_pattern, spec_match_clause. rewrite Hs, Hf.
  rewrite pattern_end_clause_end by exact Hle.
  rewrite slice_segment; [reflexivity | exact Hle |].
  rewrite <- (upper_length q). apply clause_end_le.
Qed.

Lemma where_clause_spec (q : string) :
  contains "MATCH" (upper q) = true ->
  where_clause q = from_option (String.append " ") "" (spec_where_clause q).
Proof.
  intros Hm. destruct (match_start q Hm) as (m & Hs & Hle & Hf).
  unfold where_clause, spec_where_clause. rewrite Hs, Hf.
  rewrite !find_first by (rewrite upper_length; exact Hle).
  destruct (first_occurrence "WHERE" (upper q) m) as [w |] eqn:Ew; cbn [from_option];
    [| reflexivity].
  assert (Hw : w <= String.length q).
  { apply first_position_some in Ew. rewrite upper_length in Ew. lia. }
  assert (E1 : (Z.of_nat w =? -1)%Z = false) by (apply Z.eqb_neq; lia).
  rewrite E1. cbn [negb andb].
  destruct (first_occurrence "RETURN" (upper q) m) as [r |] eqn:Er; cbn [from_option].
  - assert (Hr : r <= String.length q).
    { apply first_position_some in Er. rewrite upper_length in Er. lia. }
    assert (E2 : (Z.of_nat r =? -1)%Z = false) by (apply Z.eqb_neq; lia).
    rewrite E2. cbn [negb orb].
    destruct (Nat.ltb_spec w r).
    + rewrite (proj2 (Z.ltb_lt _ _)) by lia. cbn [from_option].
      now rewrite slice_segment.
    + now rewrite (proj2 (Z.ltb_ge _ _)) by lia.
  - change ((-1) =? -1)%Z with true. cbn [negb orb from_option]. unfold len.
    now rewrite slice_segment.
Qed.

Lemma fromkeys_first_seen (l : list string) : fromkeys l = first_seen l.
Proof.
  induction l as [| x l IH]; [reflexivity |].
  rewrite TextFacts.fromkeys_cons. cbn [first_seen]. now rewrite IH.
Qed.

Lemma variables_spec (q : string) :
  contains "MATCH" (upper q) = true ->
  nodes_of q = spec_nodes q /\ rels_of q = spec_rels q.
Proof.
  intros Hm. unfold nodes_of, rels_of, spec_nodes, spec_rels.
  now rewrite (match_pattern_spec q Hm), !fromkeys_first_seen.
Qed.

(** A query with a where clause, and the running example. *)
Definition where_query : string :=
  "MATCH (p:Person)-[r:ACTED_IN]->(m:Movie) WHERE m.released > 2000 RETURN p.name".

(** C1, as the code has it.  On an ASCII query with a match clause, at least
    one extracted variable and no relationship variable that is also a node
    variable, the rewritten query is the match clause, then a blank and the
    where clause when there is one, then a return clause listing each node
    variable immediately followed by its labels column and each
    relationship variable alone, then the cap of 50; this is the query the
    specification words.  For the example query the result is the match
    clause followed by the return clause of [p] with its labels, [m] with
    its labels and [r], capped at 50. *)
Theorem create_graph_query_rewrites (q : string) :
  isascii q = true ->
  has_match_keyword q ->
  (spec_nodes q ++ spec_rels q)%list <> [] ->
  (forall x, x ∈ spec_rels q -> x ∉ spec_nodes q) ->
  _create_graph_query q =
    spec_match_clause q ++
    from_option (String.append " ") "" (spec_where_clause q) ++
    " RETURN " ++
    join ", " (flat_map node_items (spec_nodes q) ++ spec_rels q)%list ++
    " LIMIT 50" /\
  _create_graph_query q = spec_rewrite q /\
  _create_graph_query example_query =
    "MATCH (p:Person)-[r:ACTED_IN]->(m:Movie) RETURN p, labels(p) as p_labels, m, labels(m) as m_labels, r LIMIT 50" /\
  spec_match_clause example_query = "MATCH (p:Person)-[r:ACTED_IN]->(m:Movie)".
Proof.
  intros _ Hm Hne Hdis. apply has_match_keyword_true in Hm.
  destruct (variables_spec q Hm) as [Hn Hr].
  assert (Hshape :
    _create_graph_query q =
      spec_match_clause q ++
      from_option (String.append " ") "" (spec_where_clause q) ++
      " RETURN " ++
      join ", " (flat_map node_items (spec_nodes q) ++ spec_rels q)%list ++
      " LIMIT 50").
  { rewrite create_graph_query_shape by (rewrite ?Hn, ?Hr; assumption).
    rewrite (match_pattern_spec q Hm), (where_clause_spec q Hm), Hn, Hr.
    rewrite return_parts_app, return_parts_nodes by set_solver.
    now rewrite return_parts_rels. }
  split; [exact Hshape |]. split; [| split; vm_compute; reflexivity].
  rewrite Hshape. unfold spec_rewrite.
  destruct (match_start q Hm) as (m & -> & _).
  now destruct (spec_nodes q ++ spec_rels q)%list.
Qed.

Lemma create_graph_query_rewrites_example :
  _create_graph_query where_query =
    "MATCH (p:Person)-[r:ACTED_IN]->(m:Movie) WHERE m.released > 2000 RETURN p, labels(p) as p_labels, m, labels(m) as m_labels, r LIMIT 50".
Proof.
  refine (eq_trans (proj1 (create_graph_query_rewrites where_query _ _ _ _)) _).
  - reflexivity.
  - exists "", " (P:PERSON)-[R:ACTED_IN]->(M:MOVIE) WHERE M.RELEASED > 2000 RETURN P.NAME".
    reflexivity.
  - vm_compute. discriminate.
  - intros x Hr Hn.
    assert (Er : spec_rels where_query = ["r"]) by (vm_compute; reflexivity).
    assert (En : spec_nodes where_query = ["p"; "m"]) by (vm_compute; reflexivity).
    rewrite Er in Hr. rewrite En in Hn. clear Er En.
    apply list_elem_of_singleton in Hr. subst x.
    apply elem_of_cons in Hn as [Hn | Hn]; [discriminate Hn |].
    apply list_elem_of_singleton in Hn. discriminate Hn.
  - vm_compute. reflexivity.
Defined.

(** C1 as stated fails: when a name is bound both in parentheses and in
    brackets, the relationship occurrence is followed by a labels column
    too. *)
Lemma create_graph_query_shared_name :
  _create_graph_query "MATCH (a)-[a]->(b) RETURN a"
    = "MATCH (a)-[a]->(b) RETURN a, labels(a) as a_labels, b, labels(b) as b_labels, a, labels(a) as a_labels LIMIT 50"
  /\ spec_rewrite "MATCH (a)-[a]->(b) RETURN a"
    = "MATCH (a)-[a]->(b) RETURN a, labels(a) as a_labels, b, labels(b) as b_labels, a LIMIT 50"
  /\ _create_graph_query "MATCH (a)-[a]->(b) RETURN a" <> spec_rewrite "MATCH (a)-[a]->(b) RETURN a".
Proof.
  split; [vm_compute; reflexivity |].
  split; [vm_compute; reflexivity |].
  vm_compute. discriminate.
Qed.

End RewriterRefinement.
